(** * Streaming deployment runner: a shallow embedding of [server.js]

    The development follows the newer of the two server files (the one that
    defines [processOutput]).  JavaScript strings are sequences of UTF-16
    code units, modelled as [list N]; a chunk is the string obtained from
    [data.toString()].  The process registry [activeProcesses] is a finite
    map, [io.emit] appends to a log kept in the world state. *)

From Stdlib Require Import ZArith NArith Ascii String DecimalString.
From stdpp Require Import base option list gmap.

(** ** JavaScript strings *)

Abbreviation jsstring := (list N).

(** An ASCII literal as a JavaScript string. *)
Definition js (s : string) : jsstring :=
  map N_of_ascii (list_ascii_of_string s).

Definition CR : N := 13.
Definition LF : N := 10.
Definition SLASH : N := 47.
Definition LIGHT_SHADE : N := 9617.  (* U+2591 *)
Definition FULL_BLOCK : N := 9608.   (* U+2588 *)

(** A string used as a condition is true when it is not empty. *)
Definition truthy (s : jsstring) : bool :=
  match s with [] => false | _ => true end.

(** [WhiteSpace] and [LineTerminator] of ECMAScript, the code units removed
    by [String.prototype.trim]. *)
Definition is_ws (c : N) : bool :=
  ((9 <=? c) && (c <=? 13) || (c =? 32) || (c =? 160) || (c =? 5760)
   || (8192 <=? c) && (c <=? 8202) || (c =? 8232) || (c =? 8233)
   || (c =? 8239) || (c =? 8287) || (c =? 12288) || (c =? 65279))%N.

Fixpoint trimStart (s : jsstring) : jsstring :=
  match s with
  | c :: r => if is_ws c then trimStart r else s
  | [] => []
  end.

Definition trim (s : jsstring) : jsstring :=
  rev (trimStart (rev (trimStart s))).

(** [s.startsWith(p)] *)
Fixpoint startsWith (s p : jsstring) {struct p} : bool :=
  match p, s with
  | [], _ => true
  | a :: p', b :: s' => (a =? b)%N && startsWith s' p'
  | _ :: _, [] => false
  end.

(** [s.includes(p)] *)
Fixpoint includes (s p : jsstring) : bool :=
  startsWith s p || match s with _ :: r => includes r p | [] => false end.

(** [s.split(sep)] for a separator of one code unit, the only kind the
    server uses.  The result is never empty. *)
Fixpoint split (sep : N) (s : jsstring) : list jsstring :=
  match s with
  | [] => [[]]
  | c :: r =>
      if (c =? sep)%N then [] :: split sep r
      else match split sep r with
           | seg :: segs => (c :: seg) :: segs
           | [] => [[c]]
           end
  end.

(** [segs.join(sep)] *)
Fixpoint join (sep : N) (segs : list jsstring) : jsstring :=
  match segs with
  | [] => []
  | [seg] => seg
  | seg :: rest => seg ++ sep :: join sep rest
  end.

(** [l.pop()]: the array without its last element, and that element
    ([None] stands for [undefined]). *)
Definition pop {A} (l : list A) : list A * option A :=
  (removelast l, last l).

(** [s.replace(p, "")] with a string pattern: only the first occurrence of
    [p] is removed. *)
Fixpoint remove_first (p s : jsstring) : jsstring :=
  if startsWith s p then drop (length p) s
  else match s with
       | c :: r => c :: remove_first p r
       | [] => []
       end.

(** ** Regular expressions

    The fragment of the regular-expression language used by the server,
    matched by derivatives.  [test] searches for a match starting at every
    index, as [RegExp.prototype.test] does for a pattern without flags. *)

Module Regex.

Inductive regex :=
| Void
| Eps
| Class (p : N -> bool)
| Cat (r1 r2 : regex)
| Alt (r1 r2 : regex)
| Star (r : regex).

(** [r+] *)
Definition Plus (r : regex) : regex := Cat r (Star r).

Definition Chr (c : N) : regex := Class (N.eqb c).

(** [\d] *)
Definition is_digit (c : N) : bool := ((48 <=? c) && (c <=? 57))%N.
Definition Digit : regex := Class is_digit.

Fixpoint nullable (r : regex) : bool :=
  match r with
  | Void => false
  | Eps => true
  | Class _ => false
  | Cat r1 r2 => nullable r1 && nullable r2
  | Alt r1 r2 => nullable r1 || nullable r2
  | Star _ => true
  end.

Fixpoint deriv (c : N) (r : regex) : regex :=
  match r with
  | Void => Void
  | Eps => Void
  | Class p => if p c then Eps else Void
  | Cat r1 r2 =>
      if nullable r1 then Alt (Cat (deriv c r1) r2) (deriv c r2)
      else Cat (deriv c r1) r2
  | Alt r1 r2 => Alt (deriv c r1) (deriv c r2)
  | Star r1 => Cat (deriv c r1) (Star r1)
  end.

(** Does some prefix of [s] match [r]? *)
Fixpoint match_prefix (r : regex) (s : jsstring) : bool :=
  nullable r ||
  match s with
  | c :: s' => match_prefix (deriv c r) s'
  | [] => false
  end.

(** [r.test(s)] *)
Fixpoint test (r : regex) (s : jsstring) : bool :=
  match_prefix r s ||
  match s with
  | _ :: s' => test r s'
  | [] => false
  end.

(** The language of a regular expression. *)
Inductive Matches : regex -> jsstring -> Prop :=
| MEps : Matches Eps []
| MClass p c : p c = true -> Matches (Class p) [c]
| MCat r1 r2 s1 s2 :
    Matches r1 s1 -> Matches r2 s2 -> Matches (Cat r1 r2) (s1 ++ s2)
| MAltL r1 r2 s : Matches r1 s -> Matches (Alt r1 r2) s
| MAltR r1 r2 s : Matches r2 s -> Matches (Alt r1 r2) s
| MStarNil r : Matches (Star r) []
| MStarCons r s1 s2 :
    Matches r s1 -> Matches (Star r) s2 -> Matches (Star r) (s1 ++ s2).

End Regex.

(** [/\[\d+\/\d+\]/] *)
Definition fraction_re : Regex.regex :=
  Regex.Cat (Regex.Chr 91)
    (Regex.Cat (Regex.Plus Regex.Digit)
       (Regex.Cat (Regex.Chr 47)
          (Regex.Cat (Regex.Plus Regex.Digit) (Regex.Chr 93)))).

(** ** Output classifier

    The [isProgress] expression of [processOutput]. *)
Definition classify (line : jsstring) : bool :=
  includes line [LIGHT_SHADE] ||
  includes line [FULL_BLOCK] ||
  includes line (js "%") ||
  includes line (js "...") ||
  Regex.test fraction_re line.

(** ** Events *)

Inductive output_type := Stdout | Stderr | System | Success | Error.

#[global] Instance output_type_eq_dec : EqDecision output_type.
Proof. solve_decision. Defined.

(** The payload of a [commandOutput] event.  The fields [isProgress] and
    [replaceLast] are absent from some of the objects the server emits:
    [None] stands for an absent field. *)
Record CommandEvent := {
  commandId : jsstring;
  output : jsstring;
  outputType : output_type;
  isProgress : option bool;
  replaceLast : option bool;
}.

Inductive emission :=
| commandOutput (e : CommandEvent)
| commandFinished (id : jsstring) (exitCode : Z).

(** ** Line reassembler and [processOutput] *)

(** Lines 52-54: append the chunk, split on carriage return, pop the
    pending line.  [split] never returns an empty array, so the default is
    never taken. *)
Definition reassemble (buffer data : jsstring) : list jsstring * jsstring :=
  let buffer := buffer ++ data in
  let lines := split CR buffer in
  let '(lines, lastLine) := pop lines in
  (lines, default [] lastLine).

(** The event emitted for a complete line (lines 59-69). *)
Definition line_event (type : output_type) (id line : jsstring) : CommandEvent :=
  {| commandId := id; output := line; outputType := type;
     isProgress := Some (classify line); replaceLast := None |}.

(** The event emitted for the pending line (lines 75-81). *)
Definition progress_event (type : output_type) (id lastLine : jsstring) : CommandEvent :=
  {| commandId := id; output := lastLine; outputType := type;
     isProgress := Some true; replaceLast := Some true |}.

(** [processOutput(buffer, data, type, commandId)]: the events it emits, in
    order, and the string it returns. *)
Definition processOutput (buffer data : jsstring) (type : output_type)
    (id : jsstring) : list CommandEvent * jsstring :=
  let '(lines, lastLine) := reassemble buffer data in
  let complete :=
    flat_map (fun line =>
      if truthy (trim line) then [line_event type id line] else []) lines in
  let pending :=
    if truthy (trim lastLine) then [progress_event type id lastLine] else [] in
  (complete ++ pending, lastLine).

(** One stream of a child process: [processOutput] on every chunk, the
    returned string being the buffer of the next call. *)
Fixpoint feed (type : output_type) (id : jsstring) (buffer : jsstring)
    (chunks : list jsstring) : list CommandEvent * jsstring :=
  match chunks with
  | [] => ([], buffer)
  | data :: rest =>
      let '(evs, buffer') := processOutput buffer data type id in
      let '(evs', final) := feed type id buffer' rest in
      (evs ++ evs', final)
  end.

(** The event emitted for a remaining buffer when the process closes
    (lines 134-147, once for each stream). *)
Definition flush_event (type : output_type) (id buffer : jsstring) : CommandEvent :=
  {| commandId := id; output := buffer ++ [LF]; outputType := type;
     isProgress := None; replaceLast := None |}.

Definition flush (type : output_type) (id buffer : jsstring) : list CommandEvent :=
  if truthy (trim buffer) then [flush_event type id buffer] else [].

(** ** Process runner *)

(** A child process reference. *)
Definition handle := positive.

Record js_error := { message : jsstring }.

(** The exit code passed to the [close] listener: a number, or [null]
    ([None]) when the process was terminated by a signal. *)
Definition exit_code := option Z.

Definition code_to_string (code : exit_code) : jsstring :=
  match code with
  | Some n => js (NilZero.string_of_int (Z.to_int n))
  | None => js "null"
  end.

(** [code === 0] *)
Definition is_zero (code : exit_code) : bool :=
  match code with Some 0%Z => true | _ => false end.

Inductive settlement :=
| Pending
| Resolved (code : exit_code)
| Rejected (e : js_error).

(** A promise is settled once; later calls of [resolve] and [reject] have
    no effect. *)
Definition settle (new old : settlement) : settlement :=
  match old with Pending => new | _ => old end.

(** The variables closed over by the listeners of one [executeCommand]
    call. *)
Record run := {
  stdoutBuffer : jsstring;
  stderrBuffer : jsstring;
  promise : settlement;
}.

(** What a child process delivers to its listeners. *)
Inductive proc_event :=
| StdoutData (data : jsstring)
| StderrData (data : jsstring)
| Close (code : exit_code)
| SpawnError (e : js_error).

(** The state shared by all handlers: the registry, the log of [io.emit],
    the processes [kill] was called on and the commands spawned, each log
    oldest first; and, since the listeners of a child are never detached,
    the children whose promise is settled, each with its identifier, the
    variables of its listeners and the events it has still to deliver. *)
Record world := {
  activeProcesses : gmap jsstring handle;
  emitted : list emission;
  killed : list handle;
  spawned : list (jsstring * jsstring);
  next_handle : handle;
  listening : list (jsstring * run * list proc_event);
}.

Definition emit (e : emission) (w : world) : world :=
  {| activeProcesses := activeProcesses w; emitted := emitted w ++ [e];
     killed := killed w; spawned := spawned w; next_handle := next_handle w;
     listening := listening w |}.

Definition emit_all (es : list CommandEvent) (w : world) : world :=
  {| activeProcesses := activeProcesses w;
     emitted := emitted w ++ map commandOutput es;
     killed := killed w; spawned := spawned w; next_handle := next_handle w;
     listening := listening w |}.

Definition set_registry (m : gmap jsstring handle) (w : world) : world :=
  {| activeProcesses := m; emitted := emitted w;
     killed := killed w; spawned := spawned w; next_handle := next_handle w;
     listening := listening w |}.

Definition kill (p : handle) (w : world) : world :=
  {| activeProcesses := activeProcesses w; emitted := emitted w;
     killed := killed w ++ [p]; spawned := spawned w;
     next_handle := next_handle w; listening := listening w |}.

(** [spawn(command, [], {cwd, shell: true, ...})] *)
Definition spawn (command cwd : jsstring) (w : world) : handle * world :=
  (next_handle w,
   {| activeProcesses := activeProcesses w; emitted := emitted w;
      killed := killed w; spawned := spawned w ++ [(command, cwd)];
      next_handle := Pos.succ (next_handle w); listening := listening w |}).

(** The listeners of a child whose promise is settled stay attached. *)
Definition keep_listening (id : jsstring) (r : run) (evs : list proc_event)
    (w : world) : world :=
  {| activeProcesses := activeProcesses w; emitted := emitted w;
     killed := killed w; spawned := spawned w; next_handle := next_handle w;
     listening := listening w ++ [(id, r, evs)] |}.

Definition stop_listening (w : world) : world :=
  {| activeProcesses := activeProcesses w; emitted := emitted w;
     killed := killed w; spawned := spawned w; next_handle := next_handle w;
     listening := [] |}.

(** An event object with the three fields [commandId], [output] and
    [outputType] only. *)
Definition simple_event (type : output_type) (id text : jsstring) : CommandEvent :=
  {| commandId := id; output := text; outputType := type;
     isProgress := None; replaceLast := None |}.

(** Lines 89-112: the buffers start empty, the description, when there is
    one, is emitted as a system event, the command is spawned and its
    handle registered.  The [console.log] of line 88 is not modelled. *)
Definition start (command cwd id : jsstring) (description : option jsstring)
    (w : world) : run * world :=
  let w :=
    match description with
    | Some d =>
        if truthy d then emit (commandOutput (simple_event System id (d ++ [LF]))) w
        else w
    | None => w
    end in
  let '(childProcess, w) := spawn command cwd w in
  let w := set_registry (<[id := childProcess]> (activeProcesses w)) w in
  ({| stdoutBuffer := []; stderrBuffer := []; promise := Pending |}, w).

(** The [data] listener of [stdout] (lines 114-121). *)
Definition on_stdout (id data : jsstring) (s : run * world) : run * world :=
  let '(r, w) := s in
  let '(evs, buf) := processOutput (stdoutBuffer r) data Stdout id in
  ({| stdoutBuffer := buf; stderrBuffer := stderrBuffer r; promise := promise r |},
   emit_all evs w).

(** The [data] listener of [stderr] (lines 123-130). *)
Definition on_stderr (id data : jsstring) (s : run * world) : run * world :=
  let '(r, w) := s in
  let '(evs, buf) := processOutput (stderrBuffer r) data Stderr id in
  ({| stdoutBuffer := stdoutBuffer r; stderrBuffer := buf; promise := promise r |},
   emit_all evs w).

(** The terminal event of the [close] listener (lines 149-153). *)
Definition terminal_event (id : jsstring) (code : exit_code) : CommandEvent :=
  simple_event (if is_zero code then Success else Error) id
    (js "Process finished with exit code: " ++ code_to_string code ++ [LF]).

(** The [close] listener (lines 132-162). *)
Definition on_close (id : jsstring) (code : exit_code) (s : run * world)
    : run * world :=
  let '(r, w) := s in
  let w := emit_all (flush Stdout id (stdoutBuffer r)) w in
  let w := emit_all (flush Stderr id (stderrBuffer r)) w in
  let w := emit (commandOutput (terminal_event id code)) w in
  let w := set_registry (delete id (activeProcesses w)) w in
  let outcome :=
    if is_zero code then Resolved code
    else Rejected {| message :=
           js "Command failed with exit code " ++ code_to_string code |} in
  ({| stdoutBuffer := stdoutBuffer r; stderrBuffer := stderrBuffer r;
      promise := settle outcome (promise r) |}, w).

(** The [error] listener (lines 164-166). *)
Definition on_error (e : js_error) (s : run * world) : run * world :=
  let '(r, w) := s in
  ({| stdoutBuffer := stdoutBuffer r; stderrBuffer := stderrBuffer r;
      promise := settle (Rejected e) (promise r) |}, w).

Definition deliver (id : jsstring) (ev : proc_event) (s : run * world)
    : run * world :=
  match ev with
  | StdoutData data => on_stdout id data s
  | StderrData data => on_stderr id data s
  | Close code => on_close id code s
  | SpawnError e => on_error e s
  end.

(** The events of a child are delivered to its listeners in order, all of
    them: no listener is ever detached. *)
Fixpoint deliver_all (id : jsstring) (evs : list proc_event) (s : run * world)
    : run * world :=
  match evs with
  | [] => s
  | ev :: rest => deliver_all id rest (deliver id ev s)
  end.

(** The events of a child up to its first close or error, which settles
    the promise, and the events it delivers after that one. *)
Fixpoint settling (evs : list proc_event) : list proc_event :=
  match evs with
  | [] => []
  | Close code :: _ => [Close code]
  | SpawnError e :: _ => [SpawnError e]
  | ev :: rest => ev :: settling rest
  end.

Fixpoint late (evs : list proc_event) : list proc_event :=
  match evs with
  | [] => []
  | Close _ :: rest => rest
  | SpawnError _ :: rest => rest
  | _ :: rest => late rest
  end.

(** [executeCommand(command, cwd, commandId, description)], run against the
    events its child process delivers: the promise, and the world that the
    caller awaiting the promise finds when it resumes, which is when the
    promise is settled.  The events the child delivers after that are kept
    with the listeners, see [drain]. *)
Definition executeCommand (behaviour : list proc_event)
    (command cwd id : jsstring) (description : option jsstring) (w : world)
    : settlement * world :=
  let '(r, w) :=
    deliver_all id (settling behaviour) (start command cwd id description w) in
  (promise r, keep_listening id r (late behaviour) w).

(** The command with all the events of its child delivered: the variables
    of the listeners and the world after the run. *)
Definition run_command (behaviour : list proc_event)
    (command cwd id : jsstring) (description : option jsstring) (w : world)
    : run * world :=
  deliver_all id behaviour (start command cwd id description w).

(** The children whose promise is settled deliver the events they have
    still to deliver. *)
Definition drain (w : world) : world :=
  foldl (fun w l => snd (deliver_all (fst (fst l)) (snd l) (snd (fst l), w)))
    (stop_listening w) (listening w).

(** ** Command sequencer *)

(** What the HTTP handler sends back. *)
Inductive json_body :=
| DeployOk (id : jsstring)      (* {success: true, commandId} *)
| StopOk                        (* {success: true} *)
| Failure (error : jsstring).   (* {success: false, error} *)

Record response := { status : N; body : json_body }.

(** What the handlers take from their environment: the repository root,
    [path.join], [fs.existsSync], the clock, and the events delivered by the
    child process spawned for a command in a working directory. *)
Record env := {
  REPOS_DIR : jsstring;
  path_join : jsstring -> jsstring -> jsstring;
  existsSync : jsstring -> bool;
  now : N;
  child : jsstring -> jsstring -> list proc_event;
}.

(** The body of an [async] function: it returns, throws, or stays suspended
    at an [await] whose promise is never settled. *)
Inductive result (A : Type) :=
| Ok (a : A)
| Throw (e : js_error)
| Suspended.
Arguments Ok {A} a.
Arguments Throw {A} e.
Arguments Suspended {A}.

Definition M (A : Type) : Type := world -> result A * world.

Definition ret {A} (a : A) : M A := fun w => (Ok a, w).

Definition bind {A B} (m : M A) (k : A -> M B) : M B :=
  fun w =>
    match m w with
    | (Ok a, w') => k a w'
    | (Throw e, w') => (Throw e, w')
    | (Suspended, w') => (Suspended, w')
    end.

Notation "m >> k" := (bind m (fun _ => k))
  (at level 90, right associativity, only parsing).

(** [io.emit(...)] as a statement. *)
Definition io_emit (e : emission) : M unit := fun w => (Ok tt, emit e w).

(** [await p] *)
Definition await (p : world -> settlement * world) : M exit_code :=
  fun w =>
    let '(s, w') := p w in
    match s with
    | Resolved code => (Ok code, w')
    | Rejected e => (Throw e, w')
    | Pending => (Suspended, w')
    end.

(** [await executeCommand(command, cwd, commandId, description)] *)
Definition step (E : env) (command cwd id description : jsstring) : M exit_code :=
  await (executeCommand (child E command cwd) command cwd id (Some description)).

(** Line 176: [gitUrl.split("/").pop().replace(".git", "")]. *)
Definition repoName_of (gitUrl : jsstring) : jsstring :=
  remove_first (js ".git") (default [] (snd (pop (split SLASH gitUrl)))).

(** The [try] block of [/api/deploy] (lines 176-228). *)
Definition deploy_try (E : env) (gitUrl branch id : jsstring) : M response :=
  let repoName := repoName_of gitUrl in
  let repoPath := path_join E (REPOS_DIR E) repoName in
  io_emit (commandOutput (simple_event System id
    (js "Starting deployment process for " ++ repoName ++ js "..." ++ [LF]))) >>
  (if negb (existsSync E repoPath) then
     step E (js "git clone " ++ gitUrl) (REPOS_DIR E) id
       (js "Cloning repository " ++ gitUrl ++ js "...")
   else
     step E (js "git fetch --all") repoPath id
       (js "Repository exists, fetching latest changes...")) >>
  step E (js "git checkout " ++ branch ++ js " && git pull origin " ++ branch)
    repoPath id (js "Checking out branch: " ++ branch) >>
  step E (js "npm install") repoPath id (js "Installing dependencies...") >>
  step E (js "npm run build") repoPath id (js "Building the application...") >>
  io_emit (commandFinished id 0) >>
  ret {| status := 200; body := DeployOk id |}.

(** The [catch] block of [/api/deploy] (lines 229-242). *)
Definition deploy_catch (id : jsstring) (error : js_error) (w : world)
    : response * world :=
  let w := emit (commandOutput (simple_event Stderr id
             (js "Error: " ++ message error ++ [LF]))) w in
  let w := emit (commandFinished id 1) w in
  ({| status := 500; body := Failure (message error) |}, w).

(** [Date.now().toString()] *)
Definition fresh_id (E : env) : jsstring :=
  js (NilZero.string_of_uint (N.to_uint (now E))).

(** The [/api/deploy] handler: the response and the world when the
    response is sent.  No response is sent while the handler is
    suspended. *)
Definition deploy (E : env) (gitUrl branch : jsstring) (w : world)
    : option response * world :=
  let id := fresh_id E in
  match deploy_try E gitUrl branch id w with
  | (Ok r, w') => (Some r, w')
  | (Throw error, w') =>
      let '(r, w'') := deploy_catch id error w' in (Some r, w'')
  | (Suspended, w') => (None, w')
  end.

(** The deployment with the events delivered that the children had still
    to deliver when the handler ended: the world after the run. *)
Definition deploy_run (E : env) (gitUrl branch : jsstring) (w : world)
    : option response * world :=
  let '(r, w') := deploy E gitUrl branch w in (r, drain w').

(** ** Process registry *)

(** The [/api/stop] handler (lines 245-261). *)
Definition stop (id : jsstring) (w : world) : response * world :=
  match activeProcesses w !! id with
  | Some processToStop =>
      let w := kill processToStop w in
      let w := set_registry (delete id (activeProcesses w)) w in
      let w := emit (commandOutput (simple_event System id
                 (js "Process stopped by user" ++ [LF]))) w in
      ({| status := 200; body := StopOk |}, w)
  | None =>
      ({| status := 404; body := Failure (js "Process not found") |}, w)
  end.

(** The [SIGTERM] listener (lines 275-281), up to its [process.exit]: every
    registered process is killed, then the registry is cleared.  The order
    of the kills is that of [map_to_list], not the insertion order of the
    JavaScript [Map]. *)
Definition killAll (w : world) : world :=
  let w := foldl (fun w proc => kill proc w) w
             (map snd (map_to_list (activeProcesses w))) in
  set_registry ∅ w.

(** ** Repository listing *)

(** What [/api/repos] takes from the file system: [fs.readdirSync(p)] and
    [fs.statSync(p).isDirectory()], each returning or throwing. *)
Record filesystem := {
  readdirSync : jsstring -> js_error + list jsstring;
  isDirectory : jsstring -> js_error + bool;
}.

Inductive repos_body :=
| ReposOk (repos : list jsstring)     (* {repos} *)
| ReposError (error : jsstring).      (* {error} *)

Record repos_response := { repos_status : N; repos_json : repos_body }.

(** [files.filter(file => fs.statSync(path.join(REPOS_DIR, file))
    .isDirectory())]: the callback runs on the entries in order and the
    first exception ends the filter. *)
Fixpoint filter_directories (E : env) (F : filesystem) (files : list jsstring)
    : js_error + list jsstring :=
  match files with
  | [] => inr []
  | file :: rest =>
      match isDirectory F (path_join E (REPOS_DIR E) file) with
      | inl e => inl e
      | inr keep =>
          match filter_directories E F rest with
          | inl e => inl e
          | inr dirs => inr (if keep then file :: dirs else dirs)
          end
      end
  end.

(** The [/api/repos] handler (lines 263-272). *)
Definition repos (E : env) (F : filesystem) : repos_response :=
  match readdirSync F (REPOS_DIR E) with
  | inl e => {| repos_status := 500; repos_json := ReposError (message e) |}
  | inr files =>
      match filter_directories E F files with
      | inl e => {| repos_status := 500; repos_json := ReposError (message e) |}
      | inr dirs => {| repos_status := 200; repos_json := ReposOk dirs |}
      end
  end.

(** ** The earlier server

    The file [server.js] holds an earlier version of the same server, with
    no line reassembly: every chunk is emitted as it arrives, and the close
    of a child always resolves the promise. *)

Module Legacy.

(** [commandOutput] carries [{commandId, output, type}] and
    [commandFinished] carries [{commandId, exitCode}], the exit code being
    that of the child or 1. *)
Inductive emission :=
| commandOutput (id output : jsstring) (type : output_type)
| commandFinished (id : jsstring) (exitCode : exit_code).

(** The world of the earlier server; as in the later one, the listeners of
    a child are never detached, and [listening] holds the children whose
    promise is settled with the events they have still to deliver. *)
Record world := {
  activeProcesses : gmap jsstring handle;
  emitted : list emission;
  killed : list handle;
  spawned : list (jsstring * jsstring);
  next_handle : handle;
  listening : list (jsstring * settlement * list proc_event);
}.

Definition emit (e : emission) (w : world) : world :=
  {| activeProcesses := activeProcesses w; emitted := emitted w ++ [e];
     killed := killed w; spawned := spawned w; next_handle := next_handle w;
     listening := listening w |}.

Definition set_registry (m : gmap jsstring handle) (w : world) : world :=
  {| activeProcesses := m; emitted := emitted w;
     killed := killed w; spawned := spawned w; next_handle := next_handle w;
     listening := listening w |}.

Definition kill (p : handle) (w : world) : world :=
  {| activeProcesses := activeProcesses w; emitted := emitted w;
     killed := killed w ++ [p]; spawned := spawned w;
     next_handle := next_handle w; listening := listening w |}.

(** [spawn(command, [], {cwd, shell: true})] *)
Definition spawn (command cwd : jsstring) (w : world) : handle * world :=
  (next_handle w,
   {| activeProcesses := activeProcesses w; emitted := emitted w;
      killed := killed w; spawned := spawned w ++ [(command, cwd)];
      next_handle := Pos.succ (next_handle w); listening := listening w |}).

Definition keep_listening (id : jsstring) (promise : settlement)
    (evs : list proc_event) (w : world) : world :=
  {| activeProcesses := activeProcesses w; emitted := emitted w;
     killed := killed w; spawned := spawned w; next_handle := next_handle w;
     listening := listening w ++ [(id, promise, evs)] |}.

Definition stop_listening (w : world) : world :=
  {| activeProcesses := activeProcesses w; emitted := emitted w;
     killed := killed w; spawned := spawned w; next_handle := next_handle w;
     listening := [] |}.

(** Lines 43-46 and 76: the command is spawned, the listeners are attached
    and the handle is registered. *)
Definition start (command cwd id : jsstring) (w : world) : settlement * world :=
  let '(process, w) := spawn command cwd w in
  (Pending, set_registry (<[id := process]> (activeProcesses w)) w).

(** The four listeners (lines 48-74). *)
Definition deliver (id : jsstring) (ev : proc_event) (s : settlement * world)
    : settlement * world :=
  let '(promise, w) := s in
  match ev with
  | StdoutData data => (promise, emit (commandOutput id data Stdout) w)
  | StderrData data => (promise, emit (commandOutput id data Stderr) w)
  | Close code =>
      (settle (Resolved code) promise, emit (commandFinished id code) w)
  | SpawnError e => (settle (Rejected e) promise, w)
  end.

(** The events of a child are delivered to its listeners in order, all of
    them: no listener is ever detached. *)
Fixpoint deliver_all (id : jsstring) (evs : list proc_event)
    (s : settlement * world) : settlement * world :=
  match evs with
  | [] => s
  | ev :: rest => deliver_all id rest (deliver id ev s)
  end.

(** [executeCommand(command, cwd, commandId)]: the promise, and the world
    that the caller awaiting the promise finds when it resumes, which is
    when the promise is settled; the events the child delivers after that
    are kept with the listeners. *)
Definition executeCommand (behaviour : list proc_event)
    (command cwd id : jsstring) (w : world) : settlement * world :=
  let '(promise, w) :=
    deliver_all id (settling behaviour) (start command cwd id w) in
  (promise, keep_listening id promise (late behaviour) w).

(** The children whose promise is settled deliver the events they have
    still to deliver. *)
Definition drain (w : world) : world :=
  foldl (fun w l => snd (deliver_all (fst (fst l)) (snd l) (snd (fst l), w)))
    (stop_listening w) (listening w).

Definition M (A : Type) : Type := world -> result A * world.

Definition ret {A} (a : A) : M A := fun w => (Ok a, w).

Definition bind {A B} (m : M A) (k : A -> M B) : M B :=
  fun w =>
    match m w with
    | (Ok a, w') => k a w'
    | (Throw e, w') => (Throw e, w')
    | (Suspended, w') => (Suspended, w')
    end.

Local Notation "m >>> k" := (bind m (fun _ => k))
  (at level 90, right associativity, only parsing).

Definition io_emit (e : emission) : M unit := fun w => (Ok tt, emit e w).

(** [await executeCommand(command, cwd, commandId)] *)
Definition exec (E : env) (command cwd id : jsstring) : M exit_code :=
  fun w =>
    let '(s, w') := executeCommand (child E command cwd) command cwd id w in
    match s with
    | Resolved code => (Ok code, w')
    | Rejected e => (Throw e, w')
    | Pending => (Suspended, w')
    end.

(** The [try] block of [/api/deploy] (lines 93-139). *)
Definition deploy_try (E : env) (gitUrl branch id : jsstring) : M response :=
  let repoName := repoName_of gitUrl in
  let repoPath := path_join E (REPOS_DIR E) repoName in
  io_emit (commandOutput id
    (js "Starting deployment process for " ++ repoName ++ js "..." ++ [LF])
    System) >>>
  (if negb (existsSync E repoPath) then
     io_emit (commandOutput id
       (js "Cloning repository " ++ gitUrl ++ js "..." ++ [LF]) System) >>>
     exec E (js "git clone " ++ gitUrl) (REPOS_DIR E) id
   else
     io_emit (commandOutput id
       (js "Repository exists, fetching latest changes..." ++ [LF]) System) >>>
     exec E (js "git fetch --all") repoPath id) >>>
  io_emit (commandOutput id
    (js "Checking out branch: " ++ branch ++ [LF]) System) >>>
  exec E (js "git checkout " ++ branch ++ js " && git pull origin " ++ branch)
    repoPath id >>>
  io_emit (commandOutput id (js "Installing dependencies..." ++ [LF]) System) >>>
  exec E (js "npm install") repoPath id >>>
  io_emit (commandOutput id (js "Building the application..." ++ [LF]) System) >>>
  exec E (js "npm run build") repoPath id >>>
  ret {| status := 200; body := DeployOk id |}.

(** The [catch] block of [/api/deploy] (lines 140-153). *)
Definition deploy_catch (id : jsstring) (error : js_error) (w : world)
    : response * world :=
  let w := emit (commandOutput id (js "Error: " ++ message error ++ [LF])
                   Stderr) w in
  let w := emit (commandFinished id (Some 1%Z)) w in
  ({| status := 500; body := Failure (message error) |}, w).

(** The [/api/deploy] handler (lines 88-154). *)
Definition deploy (E : env) (gitUrl branch : jsstring) (w : world)
    : option response * world :=
  let id := fresh_id E in
  match deploy_try E gitUrl branch id w with
  | (Ok r, w') => (Some r, w')
  | (Throw error, w') =>
      let '(r, w'') := deploy_catch id error w' in (Some r, w'')
  | (Suspended, w') => (None, w')
  end.

(** The [/api/stop] handler (lines 156-167). *)
Definition stop (id : jsstring) (w : world) : response * world :=
  match activeProcesses w !! id with
  | Some process =>
      let w := kill process w in
      let w := set_registry (delete id (activeProcesses w)) w in
      ({| status := 200; body := StopOk |}, w)
  | None =>
      ({| status := 404; body := Failure (js "Process not found") |}, w)
  end.

(** The outputs of the [commandOutput] emissions of one type. *)
Definition output_of (type : output_type) (e : emission) : option jsstring :=
  match e with
  | commandOutput _ output type' =>
      if decide (type' = type) then Some output else None
  | commandFinished _ _ => None
  end.

(** The exit codes of the [commandFinished] emissions. *)
Definition finished_code (e : emission) : option exit_code :=
  match e with
  | commandFinished _ code => Some code
  | commandOutput _ _ _ => None
  end.

(** Steps awaited one after the other, each announced by a system event,
    then a continuation. *)
Fixpoint run_steps {B} (E : env) (id : jsstring)
    (steps : list (jsstring * jsstring * jsstring)) (k : M B) : M B :=
  match steps with
  | [] => k
  | (command, cwd, description) :: rest =>
      io_emit (commandOutput id (description ++ [LF]) System) >>>
      exec E command cwd id >>> run_steps E id rest k
  end.

Definition empty_world : world :=
  {| activeProcesses := ∅; emitted := []; killed := []; spawned := [];
     next_handle := 1%positive; listening := [] |}.

End Legacy.

(** An environment in which the repository exists and every command fails
    with exit code 1. *)
Definition failing_exit_env : env :=
  {| REPOS_DIR := js "/srv/repos";
     path_join := fun a b => a ++ [SLASH] ++ b;
     existsSync := fun _ => true;
     now := 1700000000003;
     child := fun _ _ => [StderrData (js "fatal: error"); Close (Some 1%Z)] |}.

(** ** Predicates used in the statements *)

(** [p] occurs in [s] as a substring. *)
Definition contains (s p : jsstring) : Prop :=
  ∃ pre post, s = pre ++ p ++ post.

(** A non-empty run of decimal digits. *)
Definition digits (d : jsstring) : Prop :=
  d ≠ [] ∧ Forall (fun c => (48 <= c <= 57)%N) d.

(** [s] has a substring of the form [[<digits>/<digits>]]. *)
Definition has_fraction (s : jsstring) : Prop :=
  ∃ pre d1 d2 post,
    digits d1 ∧ digits d2 ∧
    s = pre ++ js "[" ++ d1 ++ js "/" ++ d2 ++ js "]" ++ post.

(** The complete lines and the pending line of a raw text. *)
Definition lines_of (raw : jsstring) : list jsstring :=
  removelast (split CR raw).

Definition pending_of (raw : jsstring) : jsstring :=
  default [] (last (split CR raw)).

(** The events emitted for the complete lines that are not blank. *)
Definition complete_events (type : output_type) (id : jsstring)
    (lines : list jsstring) : list CommandEvent :=
  flat_map (fun line =>
    if truthy (trim line) then [line_event type id line] else []) lines.

(** The event emitted for a pending line that is not blank. *)
Definition pending_events (type : output_type) (id lastLine : jsstring)
    : list CommandEvent :=
  if truthy (trim lastLine) then [progress_event type id lastLine] else [].

(** All events of one stream: those of the chunks, then the flush of the
    [close] listener. *)
Definition stream_events (type : output_type) (id : jsstring)
    (chunks : list jsstring) : list CommandEvent :=
  let '(evs, buffer) := feed type id [] chunks in
  evs ++ flush type id buffer.

(** Only whitespace. *)
Definition blank (s : jsstring) : bool := forallb is_ws s.

(** Feeding chunk after chunk through the reassembler alone. *)
Fixpoint reassemble_all (buffer : jsstring) (chunks : list jsstring)
    : list jsstring * jsstring :=
  match chunks with
  | [] => ([], buffer)
  | data :: rest =>
      let '(lines, pending) := reassemble buffer data in
      let '(lines', final) := reassemble_all pending rest in
      (lines ++ lines', final)
  end.

(** Every code unit of the raw output, the separators apart, occurs in the
    outputs of the events as often as in the raw output. *)
Definition surfaced_exactly_once (chunks : list jsstring)
    (evs : list CommandEvent) : Prop :=
  ∀ c, c ≠ CR → c ≠ LF →
    count_occ N.eq_dec (concat (map output evs)) c =
    count_occ N.eq_dec (concat chunks) c.

(** [processOutput] emits the complete lines only, the pending line being
    kept for the close of the process. *)
Definition pending_held_until_close (type : output_type)
    (id buffer data : jsstring) : Prop :=
  fst (processOutput buffer data type id) =
    complete_events type id (fst (reassemble buffer data)).

(** The flush emits one event, marked as a progress update replacing the
    last line. *)
Definition flush_as_progress (type : output_type) (id buffer : jsstring) : Prop :=
  ∃ e, flush type id buffer = [e] ∧
       isProgress e = Some true ∧ replaceLast e = Some true.

(** The settlement that the events of a child process lead to. *)
Fixpoint outcome_of (evs : list proc_event) : settlement :=
  match evs with
  | [] => Pending
  | Close code :: _ =>
      if is_zero code then Resolved code
      else Rejected {| message :=
             js "Command failed with exit code " ++ code_to_string code |}
  | SpawnError e :: _ => Rejected e
  | _ :: rest => outcome_of rest
  end.

(** The four steps of a deployment in the order of [deploy_try], each a
    command, its working directory and its description. *)
Definition deploy_steps (E : env) (gitUrl branch : jsstring)
    : list (jsstring * jsstring * jsstring) :=
  let repoPath := path_join E (REPOS_DIR E) (repoName_of gitUrl) in
  [ if negb (existsSync E repoPath)
    then (js "git clone " ++ gitUrl, REPOS_DIR E,
          js "Cloning repository " ++ gitUrl ++ js "...")
    else (js "git fetch --all", repoPath,
          js "Repository exists, fetching latest changes...");
    (js "git checkout " ++ branch ++ js " && git pull origin " ++ branch,
     repoPath, js "Checking out branch: " ++ branch);
    (js "npm install", repoPath, js "Installing dependencies...");
    (js "npm run build", repoPath, js "Building the application...") ].

(** The commands and working directories of the steps. *)
Definition plan (E : env) (gitUrl branch : jsstring)
    : list (jsstring * jsstring) :=
  map fst (deploy_steps E gitUrl branch).

(** Steps awaited one after the other, then a continuation. *)
Fixpoint run_steps {B} (E : env) (id : jsstring)
    (steps : list (jsstring * jsstring * jsstring)) (k : M B) : M B :=
  match steps with
  | [] => k
  | (command, cwd, description) :: rest =>
      step E command cwd id description >> run_steps E id rest k
  end.

(** A world reached from another by emitting [commandOutput] events
    only. *)
Definition output_only (w w' : world) : Prop :=
  spawned w' = spawned w ∧
  ∃ evs, emitted w' = emitted w ++ map commandOutput evs.

(** A step resolves. *)
Definition resolves (E : env) (s : jsstring * jsstring) : Prop :=
  ∃ code, outcome_of (child E (fst s) (snd s)) = Resolved code.

(** Terminal events have the output type [success] or [error]. *)
Definition is_terminal (e : emission) : bool :=
  match e with
  | commandOutput ev =>
      match outputType ev with Success | Error => true | _ => false end
  | commandFinished _ _ => false
  end.

(** The chunks a child process writes to each of its streams. *)
Definition is_data (ev : proc_event) : bool :=
  match ev with StdoutData _ | StderrData _ => true | _ => false end.

Definition stdout_chunks (evs : list proc_event) : list jsstring :=
  flat_map (fun ev => match ev with StdoutData d => [d] | _ => [] end) evs.

Definition stderr_chunks (evs : list proc_event) : list jsstring :=
  flat_map (fun ev => match ev with StderrData d => [d] | _ => [] end) evs.

(** The run of a command just spawned. *)
Definition fresh_run : run :=
  {| stdoutBuffer := []; stderrBuffer := []; promise := Pending |}.

(** ** Sample inputs *)

Definition sample_world : world :=
  {| activeProcesses := {[ js "41" := 7%positive ]}; emitted := [];
     killed := []; spawned := []; next_handle := 8%positive;
     listening := [] |}.

Definition sample_run : run :=
  {| stdoutBuffer := js "done"; stderrBuffer := []; promise := Pending |}.

(** An environment in which the repository is absent and every command
    succeeds, except the installation, which exits with code 1. *)
Definition sample_env : env :=
  {| REPOS_DIR := js "/srv/repos";
     path_join := fun a b => a ++ [SLASH] ++ b;
     existsSync := fun _ => false;
     now := 1700000000000;
     child := fun command _ =>
       if bool_decide (command = js "npm install")
       then [StderrData (js "ERR! missing" ++ [CR]); Close (Some 1%Z)]
       else [StdoutData (js "ok" ++ [CR]); Close (Some 0%Z)] |}.

(** An environment in which no command can be spawned: the child delivers
    an error and then its close, with the negated error number as code. *)
Definition failing_env : env :=
  {| REPOS_DIR := js "/srv/repos";
     path_join := fun a b => a ++ [SLASH] ++ b;
     existsSync := fun _ => false;
     now := 1700000000000;
     child := fun _ _ =>
       [SpawnError {| message := js "spawn ENOENT" |}; Close (Some (-2)%Z)] |}.

Definition empty_world : world :=
  {| activeProcesses := ∅; emitted := []; killed := []; spawned := [];
     next_handle := 1%positive; listening := [] |}.

(** ** Further predicates *)

(** The identifier an emission carries. *)
Definition emission_id (e : emission) : jsstring :=
  match e with
  | commandOutput ev => commandId ev
  | commandFinished id _ => id
  end.

(** The first event of a child that is not a chunk is its close. *)
Fixpoint closes (evs : list proc_event) : bool :=
  match evs with
  | [] => false
  | Close _ :: _ => true
  | SpawnError _ :: _ => false
  | _ :: rest => closes rest
  end.

(** Some event of a child is its close. *)
Definition is_close (ev : proc_event) : bool :=
  match ev with Close _ => true | _ => false end.

Definition has_close (evs : list proc_event) : bool := existsb is_close evs.

(** The last segment of a URL split on slashes. *)
Definition final_segment (gitUrl : jsstring) : jsstring :=
  default [] (snd (pop (split SLASH gitUrl))).

(** What a handler working for one identifier may change: it appends
    emissions that carry the identifier, kills nothing, and leaves the
    registry entries of the other identifiers as they are. *)
Definition footprint (id : jsstring) (w w' : world) : Prop :=
  (∃ es, emitted w' = emitted w ++ es ∧
         Forall (fun e => emission_id e = id) es) ∧
  killed w' = killed w ∧
  ∀ id', id' ≠ id → activeProcesses w' !! id' = activeProcesses w !! id'.

(** A world reached by emitting [commandOutput] events that carry one
    identifier, with nothing killed and nothing spawned. *)
Definition outputs_for (id : jsstring) (w w' : world) : Prop :=
  killed w' = killed w ∧ spawned w' = spawned w ∧
  next_handle w' = next_handle w ∧
  ∃ evs, emitted w' = emitted w ++ map commandOutput evs ∧
         Forall (fun e => commandId e = id) evs.

(** An environment in which the repository exists and every command
    succeeds. *)
Definition success_env : env :=
  {| REPOS_DIR := js "/srv/repos";
     path_join := fun a b => a ++ [SLASH] ++ b;
     existsSync := fun _ => true;
     now := 1700000000001;
     child := fun _ _ => [StdoutData (js "ok" ++ [CR]); Close (Some 0%Z)] |}.

(** An environment in which the repository exists and the checkout writes
    a line and never closes. *)
Definition hanging_env : env :=
  {| REPOS_DIR := js "/srv/repos";
     path_join := fun a b => a ++ [SLASH] ++ b;
     existsSync := fun _ => true;
     now := 1700000000002;
     child := fun command _ =>
       if bool_decide (command = js "git fetch --all")
       then [Close (Some 0%Z)]
       else [StdoutData (js "Username for 'https://example.org': ")] |}.

(** The entry of the repository root is a directory. *)
Definition is_dir (E : env) (F : filesystem) (file : jsstring) : bool :=
  match isDirectory F (path_join E (REPOS_DIR E) file) with
  | inr true => true
  | _ => false
  end.

(** A repository root holding the directories app and site, a file, and an
    entry that vanishes before it is examined. *)
Definition sample_fs : filesystem :=
  {| readdirSync := fun p =>
       if bool_decide (p = js "/srv/repos")
       then inr [js "app"; js "notes.txt"; js "site"]
       else inl {| message := js "ENOENT: no such file or directory" |};
     isDirectory := fun p =>
       if bool_decide (p = js "/srv/repos/notes.txt") then inr false
       else inr true |}.

Definition broken_fs : filesystem :=
  {| readdirSync := fun _ => inr [js "app"; js "gone"; js "site"];
     isDirectory := fun p =>
       if bool_decide (p = js "/srv/repos/gone")
       then inl {| message := js "ENOENT: no such file or directory" |}
       else inr true |}.

(** ** Runs to their end *)

(** The emissions of the start of a command: its description, when there
    is one. *)
Definition description_event (id : jsstring) (description : option jsstring)
    : list emission :=
  match description with
  | Some d =>
      if truthy d then [commandOutput (simple_event System id (d ++ [LF]))]
      else []
  | None => []
  end.

(** The emissions a world has more than an earlier one. *)
Definition emitted_since (w w' : world) : list emission :=
  drop (length (emitted w)) (emitted w').

(** A command whose child fails to spawn is rejected, and no terminal
    event is among the emissions of its run. *)
Definition rejected_without_terminal (behaviour : list proc_event)
    (command cwd id : jsstring) (description : option jsstring) (w : world)
    : Prop :=
  (∃ e, promise (fst (run_command behaviour command cwd id description w)) =
        Rejected e) ∧
  existsb is_terminal
    (emitted_since w
       (snd (run_command behaviour command cwd id description w))) = false.


(** No child of the steps delivers an event after the one that settles the
    promise of its command. *)
Definition nothing_late (E : env) (steps : list (jsstring * jsstring)) : Prop :=
  Forall (fun s => late (child E (fst s) (snd s)) = []) steps.

(** The listeners of the settled commands have nothing left to deliver. *)
Definition idle (w : world) : Prop :=
  Forall (fun l => snd l = []) (listening w).


(** * Strings *)

Lemma startsWith_spec s p : startsWith s p = true ↔ ∃ post, s = p ++ post.
Proof.
  revert s; induction p as [|a p IH]; intros s; simpl.
  - split; [intros _; by exists s | done].
  - destruct s as [|b s].
    + split; [done | intros [post H]; discriminate H].
    + rewrite andb_true_iff, N.eqb_eq, IH. split.
      * intros [-> [post ->]]. by exists post.
      * intros [post H]. simplify_eq. split; [done | by exists post].
Qed.

Lemma includes_spec s p : includes s p = true ↔ contains s p.
Proof.
  unfold contains. induction s as [|c s IH].
  - simpl. rewrite orb_false_r, startsWith_spec. split.
    + intros [post H]. by exists [], post.
    + intros [pre [post H]]. destruct pre; [by exists post | discriminate H].
  - cbn [includes]. rewrite orb_true_iff, startsWith_spec, IH. split.
    + intros [[post H] | [pre [post H]]].
      * by exists [], post.
      * exists (c :: pre), post. by rewrite H.
    + intros [pre [post H]]. destruct pre as [|c' pre].
      * left. by exists post.
      * right. injection H as ? H; subst. by exists pre, post.
Qed.

(** * Regular expressions *)

Module RegexFacts.
Import Regex.

Lemma nullable_spec r : nullable r = true ↔ Matches r [].
Proof.
  induction r as [| |p|r1 IH1 r2 IH2|r1 IH1 r2 IH2|r IH]; simpl.
  - split; [done | inversion 1].
  - split; [constructor | done].
  - split; [done | inversion 1].
  - rewrite andb_true_iff, IH1, IH2. split.
    + intros [H1 H2]. apply (MCat _ _ [] []); assumption.
    + inversion 1 as [| |? ? s1 s2 H1 H2| | | |]; subst.
      destruct s1, s2; try discriminate. done.
  - rewrite orb_true_iff, IH1, IH2. split.
    + intros [H|H]; [by apply MAltL | by apply MAltR].
    + inversion 1; subst; [by left | by right].
  - split; [constructor | done].
Qed.

Lemma Cat_inv r1 r2 m :
  Matches (Cat r1 r2) m → ∃ m1 m2, m = m1 ++ m2 ∧ Matches r1 m1 ∧ Matches r2 m2.
Proof. inversion 1; subst. by eexists _, _. Qed.

Lemma star_cons_inv r c s :
  Matches (Star r) (c :: s) →
  ∃ s1 s2, s = s1 ++ s2 ∧ Matches r (c :: s1) ∧ Matches (Star r) s2.
Proof.
  intros H. remember (Star r) as r' eqn:Er. remember (c :: s) as t eqn:Et.
  induction H as [| | | | | |r0 s1 s2 H1 _ H2 IH2]; try discriminate.
  injection Er as ->. destruct s1 as [|c1 s1]; simpl in Et.
  - by apply IH2.
  - simplify_eq. by exists s1, s2.
Qed.

Lemma deriv_spec c r s : Matches (deriv c r) s ↔ Matches r (c :: s).
Proof.
  revert s. induction r as [| |p|r1 IH1 r2 IH2|r1 IH1 r2 IH2|r IH]; intros s; simpl.
  - split; inversion 1.
  - split; inversion 1.
  - destruct (p c) eqn:Hp; split; inversion 1; subst.
    + by constructor.
    + constructor.
    + congruence.
  - assert (Hcat : Matches (Cat (deriv c r1) r2) s ↔
                   ∃ s1 s2, s = s1 ++ s2 ∧ Matches r1 (c :: s1) ∧ Matches r2 s2).
    { split.
      - inversion 1; subst. eexists _, _. split; [done|]. by rewrite <- IH1.
      - intros (s1 & s2 & -> & H1 & H2). constructor; [by apply IH1 | done]. }
    assert (Hinv : Matches (Cat r1 r2) (c :: s) ↔
                   (Matches r1 [] ∧ Matches r2 (c :: s)) ∨
                   ∃ s1 s2, s = s1 ++ s2 ∧ Matches r1 (c :: s1) ∧ Matches r2 s2).
    { split.
      - intros H. apply Cat_inv in H as (s1 & s2 & E & H1 & H2).
        destruct s1 as [|c1 s1]; simpl in E.
        + subst. by left.
        + simplify_eq. right. by exists s1, s2.
      - intros [[H1 H2] | (s1 & s2 & -> & H1 & H2)].
        + apply (MCat _ _ [] (c :: s)); assumption.
        + apply (MCat _ _ (c :: s1) s2); assumption. }
    rewrite Hinv. destruct (nullable r1) eqn:Hn.
    + split.
      * inversion 1; subst.
        -- right. by apply Hcat.
        -- left. split; [by apply nullable_spec | by apply IH2].
      * intros [[_ H2] | H].
        -- apply MAltR. by apply IH2.
        -- apply MAltL. by apply Hcat.
    + rewrite Hcat. split; [by right|].
      intros [[H1 _] | H]; [|done].
      apply nullable_spec in H1. congruence.
  - split; inversion 1; subst.
    + apply MAltL. by apply IH1.
    + apply MAltR. by apply IH2.
    + apply MAltL. by apply IH1.
    + apply MAltR. by apply IH2.
  - split.
    + inversion 1; subst. apply (MStarCons _ (c :: _)); [by apply IH | done].
    + intros H. apply star_cons_inv in H as (s1 & s2 & -> & H1 & H2).
      constructor; [by apply IH | done].
Qed.

Lemma match_prefix_spec r s :
  match_prefix r s = true ↔ ∃ m post, s = m ++ post ∧ Matches r m.
Proof.
  revert r. induction s as [|c s IH]; intros r; simpl;
    rewrite orb_true_iff, nullable_spec.
  - split.
    + intros [H|H]; [by exists [], [] | done].
    + intros (m & post & E & H). symmetry in E.
      apply app_eq_nil in E as [-> ->]. by left.
  - rewrite IH. split.
    + intros [H | (m & post & -> & H)].
      * by exists [], (c :: s).
      * exists (c :: m), post. split; [done | by apply deriv_spec].
    + intros (m & post & E & H). destruct m as [|c' m]; simpl in E.
      * by left.
      * simplify_eq. right. exists m, post.
        split; [done | by apply deriv_spec].
Qed.

Lemma test_spec r s :
  test r s = true ↔ ∃ pre m post, s = pre ++ m ++ post ∧ Matches r m.
Proof.
  induction s as [|c s IH]; cbn [test]; rewrite orb_true_iff, match_prefix_spec.
  - split.
    + intros [(m & post & E & H) | H]; [by exists [], m, post | done].
    + intros (pre & m & post & E & H). destruct pre; [|discriminate E].
      left. by exists m, post.
  - rewrite IH. split.
    + intros [(m & post & E & H) | (pre & m & post & E & H)].
      * by exists [], m, post.
      * exists (c :: pre), m, post. by rewrite E.
    + intros (pre & m & post & E & H). destruct pre as [|c' pre]; simpl in E.
      * left. by exists m, post.
      * simplify_eq. right. by exists pre, m, post.
Qed.

Lemma Chr_spec c m : Matches (Chr c) m ↔ m = [c].
Proof.
  unfold Chr. split.
  - inversion 1 as [|? ? Hp| | | | |]; subst. by apply N.eqb_eq in Hp as ->.
  - intros ->. constructor. apply N.eqb_refl.
Qed.

Lemma is_digit_spec c : is_digit c = true ↔ (48 <= c <= 57)%N.
Proof. unfold is_digit. rewrite andb_true_iff, !N.leb_le. done. Qed.

Lemma Star_Digit_spec d :
  Matches (Star Digit) d ↔ Forall (fun c => (48 <= c <= 57)%N) d.
Proof.
  split.
  - intros H. remember (Star Digit) as r eqn:Er.
    induction H as [| | | | | |r0 s1 s2 H1 _ H2 IH2]; try discriminate.
    + constructor.
    + injection Er as ->. inversion H1 as [|? ? Hp| | | | |]; subst.
      constructor; [by apply is_digit_spec | by apply IH2].
  - induction 1 as [|c d Hc _ IH].
    + constructor.
    + apply (MStarCons _ [c] d); [|done].
      constructor. by apply is_digit_spec.
Qed.

Lemma Plus_Digit_spec d : Matches (Plus Digit) d ↔ digits d.
Proof.
  unfold Plus, digits. split.
  - inversion 1 as [| |? ? s1 s2 H1 H2| | | |]; subst.
    inversion H1 as [|? ? Hp| | | | |]; subst. split; [done|].
    constructor; [by apply is_digit_spec | by apply Star_Digit_spec].
  - intros [Hne Hd]. destruct d as [|c d]; [done|].
    inversion Hd; subst. apply (MCat _ _ [c] d).
    + constructor. by apply is_digit_spec.
    + by apply Star_Digit_spec.
Qed.

Lemma Cat_spec r1 r2 m :
  Matches (Cat r1 r2) m ↔ ∃ m1 m2, m = m1 ++ m2 ∧ Matches r1 m1 ∧ Matches r2 m2.
Proof.
  split.
  - inversion 1; subst. by eexists _, _.
  - intros (m1 & m2 & -> & H1 & H2). by constructor.
Qed.

End RegexFacts.

Lemma fraction_re_spec m :
  Regex.Matches fraction_re m ↔
  ∃ d1 d2, digits d1 ∧ digits d2 ∧ m = js "[" ++ d1 ++ js "/" ++ d2 ++ js "]".
Proof.
  unfold fraction_re. split.
  - intros H.
    apply RegexFacts.Cat_spec in H as (m1 & ? & -> & H1 & H).
    apply RegexFacts.Cat_spec in H as (d1 & ? & -> & Hd1 & H).
    apply RegexFacts.Cat_spec in H as (m2 & ? & -> & H2 & H).
    apply RegexFacts.Cat_spec in H as (d2 & m3 & -> & Hd2 & H3).
    apply RegexFacts.Chr_spec in H1 as ->, H2 as ->, H3 as ->.
    apply RegexFacts.Plus_Digit_spec in Hd1, Hd2. by exists d1, d2.
  - intros (d1 & d2 & Hd1 & Hd2 & ->).
    apply RegexFacts.Cat_spec. exists (js "["), (d1 ++ js "/" ++ d2 ++ js "]").
    split; [done|]. split; [by apply RegexFacts.Chr_spec|].
    apply RegexFacts.Cat_spec. exists d1, (js "/" ++ d2 ++ js "]").
    split; [done|]. split; [by apply RegexFacts.Plus_Digit_spec|].
    apply RegexFacts.Cat_spec. exists (js "/"), (d2 ++ js "]").
    split; [done|]. split; [by apply RegexFacts.Chr_spec|].
    apply RegexFacts.Cat_spec. exists d2, (js "]").
    split; [done|]. split;
      [by apply RegexFacts.Plus_Digit_spec | by apply RegexFacts.Chr_spec].
Qed.

Lemma test_fraction_spec s :
  Regex.test fraction_re s = true ↔ has_fraction s.
Proof.
  rewrite RegexFacts.test_spec. unfold has_fraction. split.
  - intros (pre & m & post & -> & H).
    apply fraction_re_spec in H as (d1 & d2 & Hd1 & Hd2 & ->).
    exists pre, d1, d2, post. split; [done|]. split; [done|].
    by rewrite <- !app_assoc.
  - intros (pre & d1 & d2 & post & Hd1 & Hd2 & ->).
    exists pre, (js "[" ++ d1 ++ js "/" ++ d2 ++ js "]"), post. split.
    + by rewrite <- !app_assoc.
    + apply fraction_re_spec. by exists d1, d2.
Qed.

(** * Output classifier *)

(** C4: the classifier is true exactly for the lines that contain a light
    shade or full block glyph, a percent sign, three dots, or a bracketed
    fraction of two non-empty digit runs; and it takes the four values of
    the truth table. *)
Theorem classify_spec :
  (∀ line,
     classify line = true ↔
       contains line [LIGHT_SHADE] ∨ contains line [FULL_BLOCK] ∨
       contains line (js "%") ∨ contains line (js "...") ∨
       has_fraction line) ∧
  classify (js "50%") = true ∧
  classify (js "[3/10] step") = true ∧
  classify (js "Cloning into 'x'...") = true ∧
  classify (js "Build finished") = false.
Proof.
  split; [|by vm_compute].
  intros line. unfold classify.
  rewrite !orb_true_iff, !includes_spec, test_fraction_spec. tauto.
Qed.

(** * Splitting and trimming *)

Lemma split_snoc sep s : ∃ init lst, split sep s = init ++ [lst].
Proof.
  induction s as [|c s (init & lst & IH)]; simpl.
  - by exists [], [].
  - destruct (c =? sep)%N.
    + exists ([] :: init), lst. by rewrite IH.
    + rewrite IH. destruct init as [|seg init]; simpl.
      * by exists [], (c :: lst).
      * by exists ((c :: seg) :: init), lst.
Qed.

Lemma split_nonempty sep s : split sep s ≠ [].
Proof. destruct (split_snoc sep s) as (init & lst & ->). by destruct init. Qed.

Lemma split_no_sep sep s : sep ∉ s → split sep s = [s].
Proof.
  induction s as [|c s IH]; intros Hs; simpl; [done|].
  apply not_elem_of_cons in Hs as [Hc Hs].
  destruct (N.eqb_spec c sep) as [->|_]; [done|]. by rewrite IH.
Qed.

Lemma split_segments sep s : Forall (fun seg => sep ∉ seg) (split sep s).
Proof.
  induction s as [|c s IH]; simpl.
  - apply Forall_singleton, not_elem_of_nil.
  - destruct (N.eqb_spec c sep) as [->|Hc].
    + constructor; [apply not_elem_of_nil | done].
    + destruct (split sep s) as [|seg segs]; inversion IH; subst.
      * apply Forall_singleton, not_elem_of_cons.
        split; [done | apply not_elem_of_nil].
      * constructor; [|done]. by apply not_elem_of_cons.
Qed.

Lemma split_app sep a b ia la hb tb :
  split sep a = ia ++ [la] → split sep b = hb :: tb →
  split sep (a ++ b) = ia ++ (la ++ hb) :: tb.
Proof.
  intros Ha Hb. revert ia la Ha. induction a as [|c a IH]; intros ia la Ha.
  - simpl in Ha. destruct ia as [|? [|]]; simplify_eq/=. done.
  - simpl in *. destruct (split_snoc sep a) as (ia' & la' & Ea).
    rewrite Ea in Ha. specialize (IH _ _ Ea). rewrite IH.
    destruct (c =? sep)%N.
    + destruct ia as [|i ia]; simplify_eq/=.
      * by destruct ia'.
      * apply app_inj_tail in H0 as [-> ->]. done.
    + destruct ia' as [|i' ia']; simpl in *.
      * destruct ia as [|? [|]]; simplify_eq/=. done.
      * destruct ia as [|i ia]; simplify_eq/=.
        -- by destruct ia'.
        -- apply app_inj_tail in H0 as [-> ->]. done.
Qed.

Lemma join_split sep s : join sep (split sep s) = s.
Proof.
  induction s as [|c s IH]; simpl; [done|].
  destruct (N.eqb_spec c sep) as [->|_].
  - pose proof (split_nonempty sep s) as Hne.
    destruct (split sep s) as [|seg segs]; [done|]. simpl in *. by rewrite IH.
  - destruct (split sep s) as [|seg [|seg' segs]] eqn:E; simpl in *.
    + by destruct (split_nonempty sep s).
    + by rewrite IH.
    + by rewrite <- IH.
Qed.

Lemma split_lines_pending raw :
  split CR raw = lines_of raw ++ [pending_of raw].
Proof.
  unfold lines_of, pending_of.
  destruct (split_snoc CR raw) as (init & lst & ->).
  by rewrite removelast_last, last_snoc.
Qed.

Lemma pending_no_CR raw : CR ∉ pending_of raw.
Proof.
  pose proof (split_segments CR raw) as H.
  rewrite split_lines_pending, Forall_app, Forall_singleton in H. apply H.
Qed.

Lemma split_pending_app a b :
  split CR (a ++ b) = lines_of a ++ split CR (pending_of a ++ b).
Proof.
  destruct (split CR b) as [|hb tb] eqn:Eb; [by destruct (split_nonempty CR b)|].
  rewrite (split_app CR a b _ _ hb tb (split_lines_pending a) Eb).
  rewrite (split_app CR (pending_of a) b [] (pending_of a) hb tb); [done| |done].
  apply split_no_sep, pending_no_CR.
Qed.

Lemma lines_of_app a b :
  lines_of (a ++ b) = lines_of a ++ lines_of (pending_of a ++ b).
Proof.
  unfold lines_of at 1 3. rewrite split_pending_app.
  apply removelast_app, split_nonempty.
Qed.

Lemma pending_of_app a b :
  pending_of (a ++ b) = pending_of (pending_of a ++ b).
Proof.
  unfold pending_of at 1 2. rewrite split_pending_app.
  destruct (split_snoc CR (pending_of a ++ b)) as (init & lst & ->).
  by rewrite app_assoc, !last_snoc.
Qed.

Lemma reassemble_spec buffer data :
  reassemble buffer data =
    (lines_of (buffer ++ data), pending_of (buffer ++ data)).
Proof. reflexivity. Qed.

Lemma processOutput_spec buffer data type id :
  processOutput buffer data type id =
    (complete_events type id (lines_of (buffer ++ data)) ++
     pending_events type id (pending_of (buffer ++ data)),
     pending_of (buffer ++ data)).
Proof. reflexivity. Qed.

Lemma trimStart_blank s : blank (trimStart s) = blank s.
Proof.
  unfold blank. induction s as [|c s IH]; simpl; [done|].
  destruct (is_ws c) eqn:Hc; simpl; [done | by rewrite Hc].
Qed.

Lemma trimStart_nil s : trimStart s = [] ↔ blank s = true.
Proof.
  unfold blank. induction s as [|c s IH]; simpl; [done|].
  destruct (is_ws c); simpl; [done | split; discriminate].
Qed.

Lemma blank_rev s : blank (rev s) = blank s.
Proof.
  unfold blank. induction s as [|c s IH]; simpl; [done|].
  rewrite forallb_app, IH. simpl. rewrite andb_true_r. apply andb_comm.
Qed.

Lemma trim_nil s : trim s = [] ↔ blank s = true.
Proof.
  unfold trim. rewrite <- trimStart_blank, <- blank_rev, <- trimStart_nil.
  split; [|by intros ->].
  intros H. apply (f_equal (@rev N)) in H. by rewrite rev_involutive in H.
Qed.

Lemma truthy_trim s : truthy (trim s) = negb (blank s).
Proof.
  destruct (blank s) eqn:Hb.
  - apply trim_nil in Hb. by rewrite Hb.
  - destruct (trim s) eqn:Ht; [|done].
    apply trim_nil in Ht. congruence.
Qed.

Lemma blank_app s t : blank (s ++ t) = blank s && blank t.
Proof. apply forallb_app. Qed.

(** * Line reassembler *)

Lemma reassemble_all_spec buffer chunks :
  CR ∉ buffer →
  reassemble_all buffer chunks =
    (lines_of (buffer ++ concat chunks), pending_of (buffer ++ concat chunks)).
Proof.
  revert buffer. induction chunks as [|data rest IH]; intros buffer Hb;
    cbn [reassemble_all concat].
  - rewrite app_nil_r. unfold lines_of, pending_of.
    by rewrite (split_no_sep _ _ Hb).
  - rewrite reassemble_spec, (IH _ (pending_no_CR _)), app_assoc.
    by rewrite <- lines_of_app, <- pending_of_app.
Qed.

(** C3: the reassembler splits the accumulated text on carriage return, all
    segments but the last are the complete lines and the last is the new
    buffer, which [processOutput] returns and does not emit as a complete
    line; one call on [a ++ b] gives the lines and the buffer of a call on
    [a] followed by a call on [b], and so for any number of chunks; the
    text a, CR, b, CR, c gives the lines a and b and the buffer c either
    way. *)
Theorem reassemble_associative :
  (∀ buffer data,
     split CR (buffer ++ data) =
       fst (reassemble buffer data) ++ [snd (reassemble buffer data)]) ∧
  (∀ buffer data type id,
     snd (processOutput buffer data type id) = snd (reassemble buffer data) ∧
     filter (fun e => replaceLast e = None)
       (fst (processOutput buffer data type id)) =
       complete_events type id (fst (reassemble buffer data))) ∧
  (∀ buffer a b,
     let '(lines1, pending1) := reassemble buffer a in
     let '(lines2, pending2) := reassemble pending1 b in
     reassemble buffer (a ++ b) = (lines1 ++ lines2, pending2)) ∧
  (∀ chunks, reassemble_all [] chunks = reassemble [] (concat chunks)) ∧
  reassemble [] (js "a" ++ [CR] ++ js "b" ++ [CR] ++ js "c") =
    ([js "a"; js "b"], js "c") ∧
  reassemble_all [] [js "a" ++ [CR]; js "b" ++ [CR]; js "c"] =
    ([js "a"; js "b"], js "c").
Proof.
  split; [|split; [|split; [|split; [|by vm_compute]]]].
  - intros buffer data. apply split_lines_pending.
  - intros buffer data type id. rewrite processOutput_spec, reassemble_spec.
    split; [done|]. simpl. rewrite filter_app.
    assert (Hp : filter (fun e => replaceLast e = None)
              (pending_events type id (pending_of (buffer ++ data))) = []).
    { unfold pending_events. by destruct (truthy _). }
    rewrite Hp, app_nil_r.
    induction (lines_of (buffer ++ data)) as [|line lines IH]; [done|].
    simpl. rewrite filter_app, IH. by destruct (truthy (trim line)).
  - intros buffer a b. rewrite !reassemble_spec, app_assoc.
    by rewrite <- lines_of_app, <- pending_of_app.
  - intros chunks. rewrite reassemble_all_spec by apply not_elem_of_nil.
    by rewrite reassemble_spec.
Qed.

(** * Events of a stream *)

Lemma complete_events_filter type id lines :
  complete_events type id lines =
    map (line_event type id) (filter (fun l => blank l = false) lines).
Proof.
  induction lines as [|line lines IH]; [done|].
  cbn [complete_events flat_map]. fold (complete_events type id lines).
  rewrite IH, filter_cons, truthy_trim.
  destruct (decide (blank line = false)) as [Hb|Hb]; destruct (blank line); done.
Qed.

Lemma complete_events_app type id l1 l2 :
  complete_events type id (l1 ++ l2) =
    complete_events type id l1 ++ complete_events type id l2.
Proof. apply flat_map_app. Qed.

Lemma flush_blank type id buffer :
  flush type id buffer =
    if blank buffer then [] else [flush_event type id buffer].
Proof. unfold flush. rewrite truthy_trim. by destruct (blank buffer). Qed.

Lemma pending_events_blank type id lastLine :
  pending_events type id lastLine =
    if blank lastLine then [] else [progress_event type id lastLine].
Proof. unfold pending_events. rewrite truthy_trim. by destruct (blank lastLine). Qed.

Lemma filter_final_complete type id lines :
  filter (fun e => replaceLast e = None) (complete_events type id lines) =
    complete_events type id lines.
Proof.
  induction lines as [|line lines IH]; [done|].
  cbn [complete_events flat_map]. fold (complete_events type id lines).
  rewrite filter_app, IH. by destruct (truthy (trim line)).
Qed.

Lemma filter_final_pending type id lastLine :
  filter (fun e => replaceLast e = None) (pending_events type id lastLine) = [].
Proof. unfold pending_events. by destruct (truthy _). Qed.

Lemma filter_final_flush type id buffer :
  filter (fun e => replaceLast e = None) (flush type id buffer) =
    flush type id buffer.
Proof. unfold flush. by destruct (truthy _). Qed.

Lemma filter_replace_complete type id lines :
  filter (fun e => replaceLast e = Some true) (complete_events type id lines) = [].
Proof.
  induction lines as [|line lines IH]; [done|].
  cbn [complete_events flat_map]. fold (complete_events type id lines).
  rewrite filter_app, IH. by destruct (truthy (trim line)).
Qed.

Lemma filter_replace_pending type id lastLine :
  filter (fun e => replaceLast e = Some true) (pending_events type id lastLine) =
    pending_events type id lastLine.
Proof. unfold pending_events. by destruct (truthy _). Qed.

Lemma filter_replace_flush type id buffer :
  filter (fun e => replaceLast e = Some true) (flush type id buffer) = [].
Proof. unfold flush. by destruct (truthy _). Qed.

Lemma feed_cons type id buffer data rest :
  feed type id buffer (data :: rest) =
    (fst (processOutput buffer data type id) ++
       fst (feed type id (snd (processOutput buffer data type id)) rest),
     snd (feed type id (snd (processOutput buffer data type id)) rest)).
Proof.
  cbn [feed]. destruct (processOutput buffer data type id) as [evs buffer'].
  simpl. by destruct (feed type id buffer' rest).
Qed.

Lemma flat_map_seq_S {B} (f : nat → list B) a n :
  flat_map f (seq (S a) n) = flat_map (fun k => f (S k)) (seq a n).
Proof.
  rewrite <- seq_shift, !flat_map_concat_map. by rewrite map_map.
Qed.

Lemma feed_spec type id buffer chunks :
  CR ∉ buffer →
  filter (fun e => replaceLast e = None) (fst (feed type id buffer chunks)) =
    complete_events type id (lines_of (buffer ++ concat chunks)) ∧
  snd (feed type id buffer chunks) = pending_of (buffer ++ concat chunks) ∧
  filter (fun e => replaceLast e = Some true)
    (fst (feed type id buffer chunks)) =
    flat_map (fun k => pending_events type id
                (pending_of (buffer ++ concat (take k chunks))))
      (seq 1 (length chunks)).
Proof.
  revert buffer. induction chunks as [|data rest IH]; intros buffer Hb.
  - cbn [feed concat fst snd length seq flat_map]. rewrite app_nil_r.
    unfold lines_of, pending_of. by rewrite (split_no_sep _ _ Hb).
  - rewrite feed_cons, processOutput_spec. cbn [fst snd concat length].
    destruct (IH (pending_of (buffer ++ data)) (pending_no_CR _))
      as (IH1 & IH2 & IH3).
    rewrite !filter_app, IH1, IH2, IH3.
    rewrite filter_final_complete, filter_final_pending.
    rewrite filter_replace_complete, filter_replace_pending.
    rewrite app_nil_r, !(app_assoc buffer data).
    rewrite <- complete_events_app, <- lines_of_app, <- pending_of_app.
    split; [done|]. split; [done|].
    cbn [seq flat_map take concat app]. rewrite app_nil_r. f_equal.
    rewrite (flat_map_seq_S _ 1).
    apply flat_map_ext. intros k. cbn [take concat].
    by rewrite (app_assoc buffer data), <- pending_of_app.
Qed.

Lemma elem_of_complete_events type id lines e :
  e ∈ complete_events type id lines →
  ∃ line, e = line_event type id line ∧ blank line = false.
Proof.
  rewrite complete_events_filter, list_elem_of_fmap.
  intros (line & -> & Hl). apply list_elem_of_filter in Hl as [Hl _].
  by exists line.
Qed.

Lemma processOutput_not_blank type id buffer data e :
  e ∈ fst (processOutput buffer data type id) → blank (output e) = false.
Proof.
  rewrite processOutput_spec. cbn [fst]. rewrite elem_of_app.
  intros [H|H].
  - by apply elem_of_complete_events in H as (line & -> & Hl).
  - rewrite pending_events_blank in H.
    destruct (blank (pending_of (buffer ++ data))) eqn:Hb.
    + by apply elem_of_nil in H.
    + by apply list_elem_of_singleton in H as ->.
Qed.

Lemma flush_not_blank type id buffer e :
  e ∈ flush type id buffer → blank (output e) = false.
Proof.
  rewrite flush_blank. destruct (blank buffer) eqn:Hb.
  - intros H. by apply elem_of_nil in H.
  - intros H. apply list_elem_of_singleton in H as ->.
    simpl. by rewrite blank_app, Hb.
Qed.

Lemma feed_not_blank type id buffer chunks e :
  e ∈ fst (feed type id buffer chunks) → blank (output e) = false.
Proof.
  revert buffer. induction chunks as [|data rest IH]; intros buffer.
  - intros H. by apply elem_of_nil in H.
  - rewrite feed_cons. cbn [fst]. rewrite elem_of_app. intros [H|H].
    + by apply processOutput_not_blank in H.
    + by apply IH in H.
Qed.

(** C1, as amended: among the events of a stream, those that are not
    replace-last progress updates are, in order, one complete-line event
    for each segment of the raw output before a carriage return that is not
    blank, then the flush event for the last segment when it is not blank;
    the segments joined by carriage returns are the raw output; and the
    replace-last events repeat, after each chunk, the pending segment when
    it is not blank. *)
Theorem stream_segments_once type id chunks :
  let raw := concat chunks in
  filter (fun e => replaceLast e = None) (stream_events type id chunks) =
    map (line_event type id) (filter (fun l => blank l = false) (lines_of raw))
    ++ (if blank (pending_of raw) then []
        else [flush_event type id (pending_of raw)]) ∧
  join CR (lines_of raw ++ [pending_of raw]) = raw ∧
  filter (fun e => replaceLast e = Some true) (stream_events type id chunks) =
    flat_map (fun k =>
        let pending := pending_of (concat (take k chunks)) in
        if blank pending then [] else [progress_event type id pending])
      (seq 1 (length chunks)).
Proof.
  intros raw. unfold stream_events.
  destruct (feed_spec type id [] chunks (not_elem_of_nil _)) as (H1 & H2 & H3).
  destruct (feed type id [] chunks) as [evs buffer]. simpl in H1, H2, H3.
  subst buffer. fold raw. rewrite !filter_app, H1, H3.
  rewrite filter_final_flush, filter_replace_flush, app_nil_r.
  rewrite complete_events_filter, flush_blank.
  split; [done|]. split.
  - by rewrite <- split_lines_pending, join_split.
  - apply flat_map_ext. intros k. apply pending_events_blank.
Qed.

Lemma on_close_emitted id code r w :
  emitted (snd (on_close id code (r, w))) =
    emitted w ++
    map commandOutput
      (flush Stdout id (stdoutBuffer r) ++ flush Stderr id (stderrBuffer r) ++
       [terminal_event id code]).
Proof. cbn. by rewrite !map_app, <- !app_assoc. Qed.

Lemma deliver_all_one id ev s : deliver_all id [ev] s = deliver id ev s.
Proof. reflexivity. Qed.

Lemma deliver_all_app id evs evs' s :
  deliver_all id (evs ++ evs') s = deliver_all id evs' (deliver_all id evs s).
Proof. revert s. induction evs as [|ev evs IH]; intros s; [done|]. apply IH. Qed.

Lemma terminal_not_blank id code : blank (output (terminal_event id code)) = false.
Proof. reflexivity. Qed.

Lemma deliver_not_blank id ev r w :
  ∃ out,
    emitted (snd (deliver id ev (r, w))) = emitted w ++ map commandOutput out ∧
    Forall (fun e => blank (output e) = false) out.
Proof.
  destruct ev as [data|data|code|e]; cbn [deliver].
  - unfold on_stdout.
    pose proof (processOutput_not_blank Stdout id (stdoutBuffer r) data) as H.
    destruct (processOutput (stdoutBuffer r) data Stdout id) as [es buf].
    exists es. split; [done|]. by apply Forall_forall.
  - unfold on_stderr.
    pose proof (processOutput_not_blank Stderr id (stderrBuffer r) data) as H.
    destruct (processOutput (stderrBuffer r) data Stderr id) as [es buf].
    exists es. split; [done|]. by apply Forall_forall.
  - eexists. split; [apply on_close_emitted|].
    rewrite !Forall_app, Forall_singleton. split; [|split].
    + apply Forall_forall. intros e. apply flush_not_blank.
    + apply Forall_forall. intros e. apply flush_not_blank.
    + apply terminal_not_blank.
  - exists []. split; [|constructor]. cbn. by rewrite app_nil_r.
Qed.

Lemma deliver_all_not_blank id evs r w :
  ∃ out,
    emitted (snd (deliver_all id evs (r, w))) =
      emitted w ++ map commandOutput out ∧
    Forall (fun e => blank (output e) = false) out.
Proof.
  revert r w. induction evs as [|ev evs IH]; intros r w.
  - exists []. split; [|constructor]. cbn. by rewrite app_nil_r.
  - cbn [deliver_all].
    destruct (deliver_not_blank id ev r w) as (out & Hout & Hnb).
    destruct (deliver id ev (r, w)) as [r' w']. cbn [fst snd] in *.
    destruct (IH r' w') as (out' & Hout' & Hnb').
    exists (out ++ out'). split.
    + by rewrite Hout', Hout, map_app, app_assoc.
    + by apply Forall_app.
Qed.

(** C10: no event of [processOutput], of the flush at close, of a whole
    stream, or emitted while the events of a child process are delivered,
    has an output whose trim is empty. *)
Theorem blank_never_emitted type id buffer data chunks evs r w e :
  e ∈ fst (processOutput buffer data type id) ∨
  e ∈ flush type id buffer ∨
  e ∈ stream_events type id chunks ∨
  (commandOutput e ∈ emitted (snd (deliver_all id evs (r, w))) ∧
   commandOutput e ∉ emitted w) →
  trim (output e) ≠ [].
Proof.
  intros H. rewrite trim_nil.
  assert (blank (output e) = false) as ->; [|done].
  destruct H as [H|[H|[H|[H Hw]]]].
  - by apply processOutput_not_blank in H.
  - by apply flush_not_blank in H.
  - unfold stream_events in H.
    pose proof (feed_not_blank type id [] chunks e) as Hf.
    destruct (feed type id [] chunks) as [es final].
    apply elem_of_app in H as [H|H]; [by apply Hf|].
    by apply flush_not_blank in H.
  - destruct (deliver_all_not_blank id evs r w) as (out & Hout & Hnb).
    rewrite Hout in H. apply elem_of_app in H as [H|H]; [done|].
    apply list_elem_of_fmap in H as (e' & He & Hin). simplify_eq.
    rewrite Forall_forall in Hnb. by apply Hnb.
Qed.

(** C10, at the chunk a, CR, space, CR, b: the event of the line a. *)
Lemma blank_never_emitted_witness :
  trim (output (line_event Stdout (js "1") (js "a"))) ≠ [].
Proof.
  apply (blank_never_emitted Stdout (js "1") []
           (js "a" ++ [CR] ++ js " " ++ [CR] ++ js "b") [] [] fresh_run
           empty_world).
  left. vm_compute. apply list_elem_of_here.
Defined.

(** * The two streams of a run *)

Lemma flush_output_type type id buffer :
  Forall (fun ev => outputType ev = type) (flush type id buffer).
Proof. unfold flush. destruct (truthy _); repeat constructor. Qed.

Lemma processOutput_type buffer data type id :
  Forall (fun e => outputType e = type) (fst (processOutput buffer data type id)).
Proof.
  rewrite processOutput_spec. cbn [fst]. apply Forall_app. split.
  - apply Forall_forall. intros e He.
    by apply elem_of_complete_events in He as (line & -> & _).
  - unfold pending_events. destruct (truthy _); repeat constructor.
Qed.

Lemma filter_type_same type (evs : list CommandEvent) :
  Forall (fun e => outputType e = type) evs →
  filter (fun e => outputType e = type) evs = evs.
Proof.
  induction 1 as [|e evs He _ IH]; [done|].
  rewrite filter_cons. case_decide; [by rewrite IH | done].
Qed.

Lemma filter_type_other type type' (evs : list CommandEvent) :
  type ≠ type' →
  Forall (fun e => outputType e = type) evs →
  filter (fun e => outputType e = type') evs = [].
Proof.
  intros Hne. induction 1 as [|e evs He _ IH]; [done|].
  rewrite filter_cons. case_decide; [congruence | done].
Qed.

Lemma emit_all_nil w : emit_all [] w = w.
Proof. destruct w. unfold emit_all. cbn. by rewrite app_nil_r. Qed.

Lemma emit_all_app es es' w :
  emit_all (es ++ es') w = emit_all es' (emit_all es w).
Proof. unfold emit_all. cbn. by rewrite map_app, app_assoc. Qed.

Lemma deliver_data id evs rest r w :
  forallb is_data evs = true →
  promise r = Pending →
  ∃ out r',
    deliver_all id (evs ++ rest) (r, w) =
      deliver_all id rest (r', emit_all out w) ∧
    promise r' = Pending ∧
    filter (fun e => outputType e = Stdout) out =
      fst (feed Stdout id (stdoutBuffer r) (stdout_chunks evs)) ∧
    stdoutBuffer r' = snd (feed Stdout id (stdoutBuffer r) (stdout_chunks evs)) ∧
    filter (fun e => outputType e = Stderr) out =
      fst (feed Stderr id (stderrBuffer r) (stderr_chunks evs)) ∧
    stderrBuffer r' = snd (feed Stderr id (stderrBuffer r) (stderr_chunks evs)).
Proof.
  revert r w. induction evs as [|ev evs IH]; intros r w Hd Hp.
  - exists [], r. by rewrite emit_all_nil.
  - cbn [forallb] in Hd. apply andb_true_iff in Hd as [Hev Hd].
    destruct ev as [data|data|code|e]; try discriminate Hev;
      cbn [app deliver_all deliver stdout_chunks stderr_chunks flat_map].
    + fold (stdout_chunks evs). fold (stderr_chunks evs).
      unfold on_stdout. rewrite feed_cons.
      pose proof (processOutput_type (stdoutBuffer r) data Stdout id) as Ht.
      destruct (processOutput (stdoutBuffer r) data Stdout id) as [es buf].
      cbn [fst snd promise stdoutBuffer stderrBuffer app] in *. rewrite Hp.
      destruct (IH {| stdoutBuffer := buf; stderrBuffer := stderrBuffer r;
                      promise := Pending |} (emit_all es w) Hd eq_refl)
        as (out & r' & Hrun & Hp' & H1 & H2 & H3 & H4).
      cbn [stdoutBuffer stderrBuffer] in H1, H2, H3, H4.
      exists (es ++ out), r'. rewrite Hrun. split.
      { by rewrite emit_all_app. }
      split; [done|]. rewrite !filter_app, H1, H3.
      rewrite (filter_type_same _ _ Ht).
      by rewrite (filter_type_other Stdout Stderr _ ltac:(done) Ht).
    + fold (stdout_chunks evs). fold (stderr_chunks evs).
      unfold on_stderr. rewrite feed_cons.
      pose proof (processOutput_type (stderrBuffer r) data Stderr id) as Ht.
      destruct (processOutput (stderrBuffer r) data Stderr id) as [es buf].
      cbn [fst snd promise stdoutBuffer stderrBuffer app] in *. rewrite Hp.
      destruct (IH {| stdoutBuffer := stdoutBuffer r; stderrBuffer := buf;
                      promise := Pending |} (emit_all es w) Hd eq_refl)
        as (out & r' & Hrun & Hp' & H1 & H2 & H3 & H4).
      cbn [stdoutBuffer stderrBuffer] in H1, H2, H3, H4.
      exists (es ++ out), r'. rewrite Hrun. split.
      { by rewrite emit_all_app. }
      split; [done|]. rewrite !filter_app, H1, H3.
      rewrite (filter_type_same _ _ Ht).
      by rewrite (filter_type_other Stderr Stdout _ ltac:(done) Ht).
Qed.

(** In a run whose child writes chunks to its two streams in any
    interleaving and then closes, the events of each type, in the order of
    their emission, are the events of that stream alone; the terminal event
    comes last. *)
Lemma run_streams id evs code w :
  forallb is_data evs = true →
  ∃ out,
    emitted (snd (deliver_all id (evs ++ [Close code]) (fresh_run, w))) =
      emitted w ++ map commandOutput out ++
      [commandOutput (terminal_event id code)] ∧
    filter (fun e => outputType e = Stdout) out =
      stream_events Stdout id (stdout_chunks evs) ∧
    filter (fun e => outputType e = Stderr) out =
      stream_events Stderr id (stderr_chunks evs).
Proof.
  intros Hd.
  destruct (deliver_data id evs [Close code] fresh_run w Hd eq_refl)
    as (out & r' & Hrun & Hp & H1 & H2 & H3 & H4).
  rewrite Hrun. cbn [stdoutBuffer stderrBuffer fresh_run] in *.
  exists (out ++ flush Stdout id (stdoutBuffer r') ++
          flush Stderr id (stderrBuffer r')).
  split; [|split].
  - rewrite deliver_all_one. cbn [deliver]. rewrite on_close_emitted.
    cbn [emit_all emitted]. by rewrite !map_app, <- !app_assoc.
  - rewrite !filter_app, H1, H2.
    rewrite (filter_type_same _ _ (flush_output_type _ _ _)).
    rewrite (filter_type_other Stderr Stdout _ ltac:(done)
               (flush_output_type _ _ _)).
    unfold stream_events. destruct (feed Stdout id [] _). cbn.
    by rewrite app_nil_r.
  - rewrite !filter_app, H3, H4.
    rewrite (filter_type_same _ _ (flush_output_type _ _ _)).
    rewrite (filter_type_other Stdout Stderr _ ltac:(done)
               (flush_output_type _ _ _)).
    unfold stream_events. by destruct (feed Stderr id [] _).
Qed.

(** C1, as stated, fails: fed the chunks ab and c, CR, the stream emits ab
    and then abc, so the code unit a is surfaced twice; fed one blank line,
    it emits nothing, so the space is dropped. *)
Lemma surfaced_exactly_once_counterexample :
  ¬ surfaced_exactly_once [js "ab"; js "c" ++ [CR]]
      (stream_events Stdout (js "1") [js "ab"; js "c" ++ [CR]]) ∧
  ¬ surfaced_exactly_once [js " " ++ [CR]]
      (stream_events Stdout (js "1") [js " " ++ [CR]]).
Proof.
  split; intros H.
  - specialize (H 97%N ltac:(done) ltac:(done)). vm_compute in H. discriminate H.
  - specialize (H 32%N ltac:(done) ltac:(done)). vm_compute in H. discriminate H.
Qed.

(** C2, as stated, fails: [processOutput] emits the pending line abc at
    once, before any close, and the flush of the buffer abc at close is an
    event without [isProgress] and [replaceLast]. *)
Lemma flush_as_progress_counterexample :
  ¬ pending_held_until_close Stdout (js "1") [] (js "abc") ∧
  ¬ flush_as_progress Stdout (js "1") (js "abc").
Proof.
  split.
  - unfold pending_held_until_close. vm_compute. discriminate.
  - intros (e & He & Hp & _). vm_compute in He. by simplify_eq.
Qed.

(** C2, as amended: after every chunk [processOutput] emits the pending
    line, unless it is blank, as an event with [isProgress] and
    [replaceLast] true; the [close] listener emits for each stream at most
    one flush event, none for a blank buffer and otherwise one whose output
    is the buffer followed by a line feed and which has neither
    [isProgress] nor [replaceLast], and then the terminal event; in a run
    whose child writes chunks and then closes, the events of each stream
    are those of its chunks followed by that one flush. *)
Theorem flush_at_close type id buffer data code r w evs :
  forallb is_data evs = true →
  fst (processOutput buffer data type id) =
    complete_events type id (fst (reassemble buffer data)) ++
    (if blank (snd (reassemble buffer data)) then []
     else [{| commandId := id; output := snd (reassemble buffer data);
              outputType := type;
              isProgress := Some true; replaceLast := Some true |}]) ∧
  flush type id buffer =
    (if blank buffer then []
     else [{| commandId := id; output := buffer ++ [LF]; outputType := type;
              isProgress := None; replaceLast := None |}]) ∧
  emitted (snd (on_close id code (r, w))) =
    emitted w ++
    map commandOutput
      (flush Stdout id (stdoutBuffer r) ++ flush Stderr id (stderrBuffer r) ++
       [terminal_event id code]) ∧
  ∃ out,
    emitted (snd (deliver_all id (evs ++ [Close code]) (fresh_run, w))) =
      emitted w ++ map commandOutput out ++
      [commandOutput (terminal_event id code)] ∧
    filter (fun e => outputType e = Stdout) out =
      fst (feed Stdout id [] (stdout_chunks evs)) ++
      flush Stdout id (snd (feed Stdout id [] (stdout_chunks evs))) ∧
    filter (fun e => outputType e = Stderr) out =
      fst (feed Stderr id [] (stderr_chunks evs)) ++
      flush Stderr id (snd (feed Stderr id [] (stderr_chunks evs))).
Proof.
  intros Hd. split; [|split; [|split]].
  - rewrite processOutput_spec, reassemble_spec. cbn [fst snd].
    by rewrite pending_events_blank.
  - apply flush_blank.
  - apply on_close_emitted.
  - destruct (run_streams id evs code w Hd) as (out & H1 & H2 & H3).
    exists out. split; [done|]. unfold stream_events in H2, H3.
    destruct (feed Stdout id [] (stdout_chunks evs)).
    by destruct (feed Stderr id [] (stderr_chunks evs)).
Qed.

(** C2, at a run whose child writes abc to stdout and closes with code 0:
    the progress event of the chunk, then one flush event, then the
    terminal event. *)
Lemma flush_at_close_witness :
  flush Stdout (js "1") (js "abc") = [flush_event Stdout (js "1") (js "abc")] ∧
  ∃ out,
    emitted (snd (deliver_all (js "1")
                    ([StdoutData (js "abc")] ++ [Close (Some 0%Z)])
                    (fresh_run, empty_world))) =
      emitted empty_world ++ map commandOutput out ++
      [commandOutput (terminal_event (js "1") (Some 0%Z))] ∧
    filter (fun e => outputType e = Stdout) out =
      [ progress_event Stdout (js "1") (js "abc");
        flush_event Stdout (js "1") (js "abc") ] ∧
    filter (fun e => outputType e = Stderr) out = [].
Proof.
  destruct (flush_at_close Stdout (js "1") (js "abc") [] (Some 0%Z) fresh_run
              empty_world [StdoutData (js "abc")] eq_refl)
    as (_ & Hf & _ & Hrun).
  split; [exact Hf | exact Hrun].
Defined.

(** * Process runner *)

Lemma is_zero_spec code : is_zero code = true ↔ code = Some 0%Z.
Proof.
  destruct code as [[| |]|]; simpl; split; (done || discriminate).
Qed.

Lemma start_run command cwd id description w :
  fst (start command cwd id description w) =
    {| stdoutBuffer := []; stderrBuffer := []; promise := Pending |}.
Proof. unfold start. by destruct description as [d|]; [destruct (truthy d)|]. Qed.

(** * Process registry *)

Lemma on_close_removes id code s :
  activeProcesses (snd (on_close id code s)) !! id = None.
Proof. destruct s as [r w]. cbn. apply lookup_delete_eq. Qed.


(** C8, the failing input: for a URL whose last segment is user.github.io
    the name is userhub.io, the first occurrence of .git being removed
    though the segment does not end in .git; for a segment ending in .git
    with no earlier occurrence the suffix is removed. *)
Theorem repoName_removes_first_occurrence :
  snd (pop (split SLASH (js "https://github.com/user/user.github.io"))) =
    Some (js "user.github.io") ∧
  repoName_of (js "https://github.com/user/user.github.io") = js "userhub.io" ∧
  repoName_of (js "https://github.com/user/repo.git") = js "repo".
Proof. by vm_compute. Qed.

Lemma killed_foldl l w :
  killed (foldl (fun w proc => kill proc w) w l) = killed w ++ l.
Proof.
  revert w. induction l as [|p l IH]; intros w; simpl.
  - by rewrite app_nil_r.
  - rewrite IH. simpl. by rewrite <- app_assoc.
Qed.

(** C9: after the shutdown listener has run, no identifier is registered
    and every handle that was registered has been killed; a stop request
    for an identifier that is not registered, or that has been removed,
    answers 404 with the error text and changes nothing. *)
Theorem killAll_clears_and_stale_stop w :
  (∀ id, activeProcesses (killAll w) !! id = None) ∧
  (∀ id p, activeProcesses w !! id = Some p → p ∈ killed (killAll w)) ∧
  (∀ id, activeProcesses w !! id = None →
     stop id w =
       ({| status := 404; body := Failure (js "Process not found") |}, w)) ∧
  (∀ id,
     stop id (set_registry (delete id (activeProcesses w)) w) =
       ({| status := 404; body := Failure (js "Process not found") |},
        set_registry (delete id (activeProcesses w)) w)).
Proof.
  split; [|split; [|split]].
  - intros id. unfold killAll. cbn. apply lookup_empty.
  - intros id p Hp. unfold killAll. cbn. rewrite killed_foldl.
    apply elem_of_app. right. apply list_elem_of_fmap.
    exists (id, p). split; [done|]. by apply elem_of_map_to_list.
  - intros id Hid. unfold stop. by rewrite Hid.
  - intros id. unfold stop. cbn. by rewrite lookup_delete_eq.
Qed.

(** C9, at a registry holding the handle 7 under the identifier 41. *)
Lemma killAll_clears_and_stale_stop_witness :
  7%positive ∈ killed (killAll sample_world) ∧
  stop (js "40") sample_world =
    ({| status := 404; body := Failure (js "Process not found") |},
     sample_world).
Proof.
  destruct (killAll_clears_and_stale_stop sample_world) as (_ & Hk & Hs & _).
  split.
  - apply (Hk (js "41")). reflexivity.
  - apply Hs. reflexivity.
Defined.

(** * Command sequencer *)

Lemma settle_pending p : settle Pending p = p.
Proof. by destruct p. Qed.

Lemma deliver_all_promise_settle id evs r w :
  promise (fst (deliver_all id evs (r, w))) =
    settle (outcome_of evs) (promise r).
Proof.
  revert r w. induction evs as [|ev evs IH]; intros r w.
  - cbn. by rewrite settle_pending.
  - cbn [deliver_all outcome_of].
    destruct ev as [data|data|code|e]; cbn [deliver].
    + unfold on_stdout.
      destruct (processOutput (stdoutBuffer r) data Stdout id) as [es buf].
      by rewrite IH.
    + unfold on_stderr.
      destruct (processOutput (stderrBuffer r) data Stderr id) as [es buf].
      by rewrite IH.
    + unfold on_close. rewrite IH. cbn [promise].
      destruct (promise r); [|done..]. cbn.
      by destruct (is_zero code), (outcome_of evs).
    + unfold on_error. rewrite IH. cbn [promise].
      destruct (promise r); [|done..]. cbn. by destruct (outcome_of evs).
Qed.

Lemma deliver_all_promise id evs r w :
  promise r = Pending →
  promise (fst (deliver_all id evs (r, w))) = outcome_of evs.
Proof. intros Hp. by rewrite deliver_all_promise_settle, Hp. Qed.

Lemma outcome_of_settling evs : outcome_of (settling evs) = outcome_of evs.
Proof. induction evs as [|[data|data|code|e] evs IH]; done. Qed.

Lemma settling_data evs rest :
  forallb is_data evs = true → settling (evs ++ rest) = evs ++ settling rest.
Proof.
  induction evs as [|ev evs IH]; [done|]. cbn [forallb].
  intros [Hev Hd]%andb_true_iff.
  destruct ev; try discriminate Hev; cbn; by rewrite IH.
Qed.

Lemma late_data evs rest :
  forallb is_data evs = true → late (evs ++ rest) = late rest.
Proof.
  induction evs as [|ev evs IH]; [done|]. cbn [forallb].
  intros [Hev Hd]%andb_true_iff.
  destruct ev; try discriminate Hev; cbn; by rewrite IH.
Qed.

Lemma output_only_refl w : output_only w w.
Proof. split; [done|]. exists []. by rewrite app_nil_r. Qed.

Lemma output_only_trans w1 w2 w3 :
  output_only w1 w2 → output_only w2 w3 → output_only w1 w3.
Proof.
  intros [S1 [e1 E1]] [S2 [e2 E2]]. split; [congruence|].
  exists (e1 ++ e2). by rewrite E2, E1, map_app, app_assoc.
Qed.

Lemma deliver_output_only id ev r w :
  output_only w (snd (deliver id ev (r, w))).
Proof.
  destruct ev as [data|data|code|e]; cbn [deliver].
  - unfold on_stdout.
    destruct (processOutput (stdoutBuffer r) data Stdout id) as [es buf].
    split; [done | by exists es].
  - unfold on_stderr.
    destruct (processOutput (stderrBuffer r) data Stderr id) as [es buf].
    split; [done | by exists es].
  - split; [done|].
    exists (flush Stdout id (stdoutBuffer r) ++ flush Stderr id (stderrBuffer r)
            ++ [terminal_event id code]).
    cbn. by rewrite !map_app, <- !app_assoc.
  - apply output_only_refl.
Qed.

Lemma deliver_all_output_only id evs r w :
  output_only w (snd (deliver_all id evs (r, w))).
Proof.
  revert r w. induction evs as [|ev evs IH]; intros r w.
  - apply output_only_refl.
  - cbn [deliver_all]. pose proof (deliver_output_only id ev r w) as H.
    destruct (deliver id ev (r, w)) as [r' w']. cbn [fst snd] in *.
    eapply output_only_trans; [exact H | apply IH].
Qed.

Lemma executeCommand_spec behaviour command cwd id description w :
  fst (executeCommand behaviour command cwd id (Some description) w) =
    outcome_of behaviour ∧
  spawned (snd (executeCommand behaviour command cwd id (Some description) w)) =
    spawned w ++ [(command, cwd)] ∧
  ∃ evs,
    emitted (snd (executeCommand behaviour command cwd id (Some description) w)) =
      emitted w ++ map commandOutput evs.
Proof.
  unfold executeCommand.
  pose proof (start_run command cwd id (Some description) w) as Hr.
  assert (Hs : spawned (snd (start command cwd id (Some description) w)) =
               spawned w ++ [(command, cwd)] ∧
               ∃ evs, emitted (snd (start command cwd id (Some description) w)) =
                      emitted w ++ map commandOutput evs).
  { unfold start. destruct (truthy description); cbn.
    - split; [done|]. by eexists [_].
    - split; [done|]. exists []. by rewrite app_nil_r. }
  destruct (start command cwd id (Some description) w) as [r0 w0].
  cbn [fst snd] in *. subst r0.
  pose proof (deliver_all_promise id (settling behaviour)
                {| stdoutBuffer := []; stderrBuffer := []; promise := Pending |}
                w0 eq_refl) as Hp.
  rewrite outcome_of_settling in Hp.
  pose proof (deliver_all_output_only id (settling behaviour)
                {| stdoutBuffer := []; stderrBuffer := []; promise := Pending |}
                w0) as [Hsp [evs Hev]].
  destruct (deliver_all id (settling behaviour) _) as [r1 w1].
  cbn [fst snd keep_listening spawned emitted] in *.
  destruct Hs as [Hs [evs0 Hev0]].
  split; [done|]. split; [congruence|].
  exists (evs0 ++ evs). by rewrite Hev, Hev0, map_app, app_assoc.
Qed.

Lemma run_steps_fail {B} E id steps (K : M B) k s err w :
  steps !! k = Some s →
  Forall (fun s => resolves E (fst s)) (take k steps) →
  outcome_of (child E (fst (fst s)) (snd (fst s))) = Rejected err →
  ∃ w' evs,
    run_steps E id steps K w = (Throw err, w') ∧
    spawned w' = spawned w ++ map fst (take (S k) steps) ∧
    emitted w' = emitted w ++ map commandOutput evs.
Proof.
  revert k w. induction steps as [|[[command cwd] description] rest IH];
    intros k w Hk Hres Herr; [done|].
  cbn [run_steps]. unfold bind, step, await.
  destruct (executeCommand_spec (child E command cwd) command cwd id
              description w) as (Ho & Hsp & evs & Hev).
  destruct (executeCommand _ command cwd id (Some description) w) as [o w1].
  cbn [fst snd] in *. subst o. destruct k as [|k].
  - simplify_eq/=. rewrite Herr. exists w1, evs. by rewrite Hsp.
  - cbn [take] in Hres. apply Forall_cons in Hres as [[code Hc] Hres].
    cbn [fst snd] in Hc. rewrite Hc.
    destruct (IH k w1 Hk Hres Herr) as (w' & evs' & Hrun & Hsp' & Hev').
    exists w', (evs ++ evs'). split; [done|]. split.
    + rewrite Hsp', Hsp. cbn. by rewrite <- app_assoc.
    + by rewrite Hev', Hev, map_app, app_assoc.
Qed.

Lemma deploy_try_steps E gitUrl branch id w :
  deploy_try E gitUrl branch id w =
    (io_emit (commandOutput (simple_event System id
       (js "Starting deployment process for " ++ repoName_of gitUrl
        ++ js "..." ++ [LF]))) >>
     run_steps E id (deploy_steps E gitUrl branch)
       (io_emit (commandFinished id 0) >>
        ret {| status := 200; body := DeployOk id |})) w.
Proof.
  unfold deploy_try, deploy_steps. cbn [run_steps].
  by destruct (negb (existsSync E _)).
Qed.

(** C6: when a step of the plan is rejected and the steps before it have
    resolved, the handler answers 500 with the message of the error, has
    spawned the steps up to the rejected one and no later step, and its
    last two emissions are the stderr event carrying the message and the
    completion event with exit code 1, no other completion event being
    emitted; when the rejected step is one of the first three, the build
    command is not spawned. *)
Theorem deploy_stops_at_first_failure E gitUrl branch w k s err :
  plan E gitUrl branch !! k = Some s →
  Forall (resolves E) (take k (plan E gitUrl branch)) →
  outcome_of (child E (fst s) (snd s)) = Rejected err →
  fst (deploy E gitUrl branch w) =
    Some {| status := 500; body := Failure (message err) |} ∧
  spawned (snd (deploy E gitUrl branch w)) =
    spawned w ++ take (S k) (plan E gitUrl branch) ∧
  (∃ evs,
     emitted (snd (deploy E gitUrl branch w)) =
       emitted w ++ map commandOutput evs ++
       [commandOutput (simple_event Stderr (fresh_id E)
          (js "Error: " ++ message err ++ [LF]));
        commandFinished (fresh_id E) 1]) ∧
  (k < 3 → ∀ cwd, (js "npm run build", cwd) ∉ take (S k) (plan E gitUrl branch)).
Proof.
  intros Hk Hres Herr. unfold plan in Hk, Hres.
  rewrite list_lookup_fmap in Hk.
  destruct (deploy_steps E gitUrl branch !! k) as [s'|] eqn:Hk'; [|done].
  simpl in Hk. injection Hk as <-. rewrite firstn_map, Forall_map in Hres.
  destruct (run_steps_fail E (fresh_id E) _
              (io_emit (commandFinished (fresh_id E) 0) >>
               ret {| status := 200; body := DeployOk (fresh_id E) |})
              k s' err
              (emit (commandOutput (simple_event System (fresh_id E)
                 (js "Starting deployment process for " ++ repoName_of gitUrl
                  ++ js "..." ++ [LF]))) w)
              Hk' Hres Herr) as (w' & evs & Hrun & Hsp & Hev).
  assert (Hd : deploy E gitUrl branch w =
                 (Some {| status := 500; body := Failure (message err) |},
                  emit (commandFinished (fresh_id E) 1)
                    (emit (commandOutput (simple_event Stderr (fresh_id E)
                       (js "Error: " ++ message err ++ [LF]))) w'))).
  { unfold deploy. rewrite deploy_try_steps. unfold bind at 1.
    cbn [io_emit]. by rewrite Hrun. }
  rewrite Hd. cbn [fst snd]. split; [done|]. split; [|split].
  - cbn [emit spawned]. rewrite Hsp. cbn [emit spawned].
    unfold plan. by rewrite (firstn_map fst).
  - eexists (_ :: evs). cbn [emit emitted]. rewrite Hev. cbn [emit emitted].
    rewrite <- !app_assoc. reflexivity.
  - intros Hlt cwd Hin. unfold plan, deploy_steps in Hin.
    destruct (negb (existsSync E _)); destruct k as [|[|[|k]]]; try lia;
      cbn in Hin;
      repeat (apply elem_of_cons in Hin as [Hin|Hin]; [discriminate Hin|]);
      by apply elem_of_nil in Hin.
Qed.

(** C6, at an installation that exits with code 1 after the clone and the
    checkout have succeeded. *)
Lemma deploy_stops_at_first_failure_witness :
  fst (deploy sample_env (js "https://example.org/team/app.git") (js "main")
         empty_world) =
    Some {| status := 500;
            body := Failure (js "Command failed with exit code 1") |} ∧
  spawned (snd (deploy sample_env (js "https://example.org/team/app.git")
                  (js "main") empty_world)) =
    [ (js "git clone https://example.org/team/app.git", js "/srv/repos");
      (js "git checkout main && git pull origin main", js "/srv/repos/app");
      (js "npm install", js "/srv/repos/app") ].
Proof.
  destruct (deploy_stops_at_first_failure sample_env
              (js "https://example.org/team/app.git") (js "main") empty_world
              2 (js "npm install", js "/srv/repos/app")
              {| message := js "Command failed with exit code 1" |})
    as (Hr & Hs & _).
  - reflexivity.
  - repeat constructor; exists (Some 0%Z); reflexivity.
  - reflexivity.
  - split; [exact Hr | exact Hs].
Defined.

(** * Further properties of the reassembler *)

Lemma split_length sep s :
  length (split sep s) = S (count_occ N.eq_dec s sep).
Proof.
  induction s as [|c s IH]; [done|]. cbn [split count_occ].
  destruct (N.eqb_spec c sep) as [->|Hc].
  - destruct (N.eq_dec sep sep); [|done]. cbn. by rewrite IH.
  - destruct (N.eq_dec c sep); [done|].
    destruct (split sep s) as [|seg segs]; [discriminate IH | done].
Qed.

Lemma join_snoc sep segs p :
  segs ≠ [] → join sep (segs ++ [p]) = join sep segs ++ sep :: p.
Proof.
  induction segs as [|seg segs IH]; [done|]. intros _.
  destruct segs as [|seg' segs]; [done|].
  change (join sep ((seg :: seg' :: segs) ++ [p]))
    with (seg ++ sep :: join sep ((seg' :: segs) ++ [p])).
  rewrite IH by done.
  change (join sep (seg :: seg' :: segs))
    with (seg ++ sep :: join sep (seg' :: segs)).
  by rewrite <- app_assoc.
Qed.

Lemma lines_pending_text raw :
  raw = pending_of raw ∧ lines_of raw = [] ∨
  raw = join CR (lines_of raw) ++ CR :: pending_of raw.
Proof.
  pose proof (join_split CR raw) as Hj. rewrite split_lines_pending in Hj.
  destruct (lines_of raw) as [|l ls] eqn:El.
  - left. by rewrite <- Hj at 1.
  - right. rewrite <- Hj at 1. by apply join_snoc.
Qed.

Lemma complete_events_length type id lines :
  length (complete_events type id lines) ≤ length lines.
Proof.
  induction lines as [|line lines IH]; [done|].
  cbn [complete_events flat_map]. fold (complete_events type id lines).
  rewrite length_app. destruct (truthy (trim line)); cbn; lia.
Qed.

(** The buffer [processOutput] returns is the text after the last carriage
    return of the old buffer followed by the chunk, or all of it when there
    is none; it never holds a carriage return.  So a chunk without carriage
    return, fed to such a buffer, completes no line and is appended to the
    buffer. *)
Theorem pending_is_text_after_last_CR buffer data type id :
  (CR ∉ snd (processOutput buffer data type id)) ∧
  (buffer ++ data = snd (processOutput buffer data type id) ∨
   (∃ before,
      buffer ++ data =
        before ++ CR :: snd (processOutput buffer data type id))) ∧
  (CR ∉ buffer ++ data →
     snd (processOutput buffer data type id) = buffer ++ data ∧
     fst (processOutput buffer data type id) =
       if blank (buffer ++ data) then []
       else [progress_event type id (buffer ++ data)]).
Proof.
  rewrite processOutput_spec. cbn [fst snd]. split; [apply pending_no_CR|].
  split.
  - destruct (lines_pending_text (buffer ++ data)) as [[H _]|H]; [by left|].
    right. by eexists.
  - intros Hno. unfold lines_of, pending_of.
    rewrite (split_no_sep _ _ Hno). cbn. split; [done|].
    apply pending_events_blank.
Qed.

(** At a chunk with no carriage return, fed to a buffer with none. *)
Lemma pending_is_text_after_last_CR_witness :
  snd (processOutput (js "Resolving ") (js "deltas") Stdout (js "1")) =
    js "Resolving deltas".
Proof.
  apply (pending_is_text_after_last_CR (js "Resolving ") (js "deltas")
           Stdout (js "1")).
  vm_compute. intros H. by repeat (apply elem_of_cons in H as [H|H];
    [discriminate H|]); apply elem_of_nil in H.
Defined.

(** A call of [processOutput] sees as many complete lines as there are
    carriage returns in the buffer followed by the chunk, and emits at most
    one event for each and one for the pending line. *)
Theorem processOutput_event_bound buffer data type id :
  length (fst (reassemble buffer data)) =
    count_occ N.eq_dec (buffer ++ data) CR ∧
  length (fst (processOutput buffer data type id)) ≤
    S (count_occ N.eq_dec (buffer ++ data) CR).
Proof.
  rewrite processOutput_spec, reassemble_spec. cbn [fst].
  assert (Hl : length (lines_of (buffer ++ data)) =
               count_occ N.eq_dec (buffer ++ data) CR).
  { pose proof (split_length CR (buffer ++ data)) as H.
    rewrite split_lines_pending, length_app in H. cbn in H. lia. }
  split; [done|]. rewrite length_app, <- Hl.
  pose proof (complete_events_length type id (lines_of (buffer ++ data))).
  unfold pending_events. destruct (truthy _); cbn; lia.
Qed.

(** Two sequences of chunks with the same concatenation, fed to
    [processOutput] one chunk after the other and flushed at the close,
    give the same events that are not replace-last progress updates, in
    the same order, and the same final buffer.  The chunks are the strings
    the [data] listeners pass on: each chunk of bytes is decoded on its own
    (lines 114-129), and the statement starts after that decoding. *)
Theorem chunking_does_not_matter type id chunks1 chunks2 :
  concat chunks1 = concat chunks2 →
  filter (fun e => replaceLast e = None) (stream_events type id chunks1) =
  filter (fun e => replaceLast e = None) (stream_events type id chunks2) ∧
  snd (feed type id [] chunks1) = snd (feed type id [] chunks2).
Proof.
  intros Hc. unfold stream_events.
  destruct (feed_spec type id [] chunks1 (not_elem_of_nil _)) as (H1 & H2 & _).
  destruct (feed_spec type id [] chunks2 (not_elem_of_nil _)) as (H3 & H4 & _).
  destruct (feed type id [] chunks1) as [evs1 b1].
  destruct (feed type id [] chunks2) as [evs2 b2].
  cbn [fst snd app] in *. rewrite !filter_app, H1, H3, H2, H4, Hc. done.
Qed.

Lemma chunking_does_not_matter_witness :
  filter (fun e => replaceLast e = None)
    (stream_events Stdout (js "1") [js "ab"; js "c" ++ [CR] ++ js "d"]) =
  filter (fun e => replaceLast e = None)
    (stream_events Stdout (js "1") [js "a"; js "bc" ++ [CR]; js "d"]).
Proof.
  apply (chunking_does_not_matter Stdout (js "1")
           [js "ab"; js "c" ++ [CR] ++ js "d"]
           [js "a"; js "bc" ++ [CR]; js "d"]).
  reflexivity.
Defined.

(** * Further properties of the runner and the registry *)

Lemma outputs_for_refl id w : outputs_for id w w.
Proof.
  repeat split. exists []. split; [|constructor]. cbn. by rewrite app_nil_r.
Qed.

Lemma outputs_for_trans id w1 w2 w3 :
  outputs_for id w1 w2 → outputs_for id w2 w3 → outputs_for id w1 w3.
Proof.
  intros (K1 & S1 & N1 & e1 & E1 & F1) (K2 & S2 & N2 & e2 & E2 & F2).
  repeat split; try congruence.
  exists (e1 ++ e2). split; [|by apply Forall_app].
  by rewrite E2, E1, map_app, app_assoc.
Qed.

Lemma processOutput_ids buffer data type id :
  Forall (fun e => commandId e = id) (fst (processOutput buffer data type id)).
Proof.
  rewrite processOutput_spec. cbn [fst]. apply Forall_app. split.
  - apply Forall_forall. intros e He.
    by apply elem_of_complete_events in He as (line & -> & _).
  - unfold pending_events. destruct (truthy _); repeat constructor.
Qed.

Lemma flush_ids type id buffer :
  Forall (fun e => commandId e = id) (flush type id buffer).
Proof. unfold flush. destruct (truthy _); repeat constructor. Qed.

Lemma deliver_full id ev r w :
  outputs_for id w (snd (deliver id ev (r, w))) ∧
  activeProcesses (snd (deliver id ev (r, w))) =
    match ev with
    | Close _ => delete id (activeProcesses w)
    | _ => activeProcesses w
    end.
Proof.
  destruct ev as [data|data|code|e]; cbn [deliver].
  - unfold on_stdout.
    pose proof (processOutput_ids (stdoutBuffer r) data Stdout id) as Hi.
    destruct (processOutput (stdoutBuffer r) data Stdout id) as [es buf].
    split; [|done]. repeat split. by exists es.
  - unfold on_stderr.
    pose proof (processOutput_ids (stderrBuffer r) data Stderr id) as Hi.
    destruct (processOutput (stderrBuffer r) data Stderr id) as [es buf].
    split; [|done]. repeat split. by exists es.
  - split; [|done]. repeat split. eexists. split; [apply on_close_emitted|].
    rewrite !Forall_app, Forall_singleton.
    split; [apply flush_ids|]. split; [apply flush_ids | done].
  - split; [apply outputs_for_refl | done].
Qed.

Lemma deliver_all_full id evs r w :
  outputs_for id w (snd (deliver_all id evs (r, w))) ∧
  activeProcesses (snd (deliver_all id evs (r, w))) =
    (if has_close evs then delete id (activeProcesses w)
     else activeProcesses w).
Proof.
  revert r w. induction evs as [|ev evs IH]; intros r w.
  - split; [apply outputs_for_refl | done].
  - cbn [deliver_all]. destruct (deliver_full id ev r w) as [Ho Hr].
    destruct (deliver id ev (r, w)) as [r1 w1]. cbn [fst snd] in *.
    destruct (IH r1 w1) as [Ho' Hr'].
    split; [by eapply outputs_for_trans|]. rewrite Hr', Hr.
    unfold has_close. cbn [existsb].
    destruct ev as [data|data|code|e]; cbn [is_close orb]; try done.
    destruct (existsb is_close evs); [|done]. apply delete_delete_eq.
Qed.

Lemma has_close_settling evs : has_close (settling evs) = closes evs.
Proof. induction evs as [|[data|data|code|e] evs IH]; done. Qed.

Lemma has_close_data evs : forallb is_data evs = true → has_close evs = false.
Proof.
  induction evs as [|ev evs IH]; [done|]. cbn [forallb].
  intros [Hev Hd]%andb_true_iff.
  destruct ev; try discriminate Hev; by apply IH.
Qed.

Lemma outcome_of_data evs rest :
  forallb is_data evs = true → outcome_of (evs ++ rest) = outcome_of rest.
Proof.
  induction evs as [|ev evs IH]; [done|]. cbn [forallb].
  intros [Hev Hd]%andb_true_iff. by destruct ev; try discriminate Hev; apply IH.
Qed.

Lemma closes_data evs rest :
  forallb is_data evs = true → closes (evs ++ rest) = closes rest.
Proof.
  induction evs as [|ev evs IH]; [done|]. cbn [forallb].
  intros [Hev Hd]%andb_true_iff. by destruct ev; try discriminate Hev; apply IH.
Qed.

Lemma start_full command cwd id description w :
  fst (start command cwd id description w) = fresh_run ∧
  activeProcesses (snd (start command cwd id description w)) =
    <[id := next_handle w]> (activeProcesses w) ∧
  killed (snd (start command cwd id description w)) = killed w ∧
  spawned (snd (start command cwd id description w)) =
    spawned w ++ [(command, cwd)] ∧
  next_handle (snd (start command cwd id description w)) =
    Pos.succ (next_handle w) ∧
  emitted (snd (start command cwd id description w)) =
    emitted w ++
    match description with
    | Some d =>
        if truthy d then [commandOutput (simple_event System id (d ++ [LF]))]
        else []
    | None => []
    end.
Proof.
  unfold start. destruct description as [d|]; [destruct (truthy d)|]; cbn;
    by rewrite ?app_nil_r.
Qed.

Lemma executeCommand_full behaviour command cwd id description w :
  fst (executeCommand behaviour command cwd id description w) =
    outcome_of behaviour ∧
  outputs_for id (snd (start command cwd id description w))
    (snd (executeCommand behaviour command cwd id description w)) ∧
  activeProcesses (snd (executeCommand behaviour command cwd id description w)) =
    (if closes behaviour then delete id (activeProcesses w)
     else <[id := next_handle w]> (activeProcesses w)).
Proof.
  unfold executeCommand.
  destruct (start_full command cwd id description w) as (Hr & Hreg & _).
  destruct (start command cwd id description w) as [r0 w0].
  cbn [fst snd] in *. subst r0.
  pose proof (deliver_all_promise id (settling behaviour) fresh_run w0 eq_refl)
    as Hp.
  destruct (deliver_all_full id (settling behaviour) fresh_run w0) as [Ho Ha].
  rewrite outcome_of_settling in Hp. rewrite has_close_settling in Ha.
  destruct (deliver_all id (settling behaviour) (fresh_run, w0)) as [r1 w1].
  cbn [fst snd keep_listening activeProcesses] in *.
  split; [done|]. split; [exact Ho|].
  rewrite Ha, Hreg. destruct (closes behaviour); [|done].
  apply delete_insert_eq.
Qed.

(** The promise of a command depends on the first close or error of its
    child only: whatever was written before, a close with code 0 resolves
    it, a close with another code rejects it with the message naming the
    code, an error rejects it with that error, and while the child only
    writes it stays pending.  Events after the first close or error do not
    matter. *)
Theorem settlement_ignores_output command cwd id description w evs code e rest :
  forallb is_data evs = true →
  fst (executeCommand (evs ++ Close code :: rest) command cwd id description w) =
    (if is_zero code then Resolved code
     else Rejected {| message :=
            js "Command failed with exit code " ++ code_to_string code |}) ∧
  fst (executeCommand (evs ++ SpawnError e :: rest) command cwd id description w) =
    Rejected e ∧
  fst (executeCommand evs command cwd id description w) = Pending.
Proof.
  intros Hd. split; [|split].
  - destruct (executeCommand_full (evs ++ Close code :: rest) command cwd id
                description w) as (-> & _).
    by rewrite outcome_of_data.
  - destruct (executeCommand_full (evs ++ SpawnError e :: rest) command cwd id
                description w) as (-> & _).
    by rewrite outcome_of_data.
  - destruct (executeCommand_full evs command cwd id description w) as (-> & _).
    rewrite <- (app_nil_r evs). by rewrite outcome_of_data.
Qed.

Lemma settlement_ignores_output_witness :
  fst (executeCommand
         ([StderrData (js "warning: deprecated" ++ [CR])] ++
          Close (Some 0%Z) :: [])
         (js "npm install") (js "/srv/repos/app") (js "41") None
         empty_world) =
    Resolved (Some 0%Z).
Proof.
  apply (settlement_ignores_output (js "npm install") (js "/srv/repos/app")
           (js "41") None empty_world
           [StderrData (js "warning: deprecated" ++ [CR])] (Some 0%Z)
           {| message := [] |} []).
  reflexivity.
Defined.

(** While the child of a command has only written output, the command is
    pending and its handle is registered under its identifier, so that a
    stop request finds it, kills that process and answers success. *)
Theorem running_process_can_be_stopped command cwd id description w evs :
  forallb is_data evs = true →
  promise (fst (deliver_all id evs (start command cwd id description w))) =
    Pending ∧
  activeProcesses (snd (deliver_all id evs (start command cwd id description w)))
    !! id = Some (next_handle w) ∧
  fst (stop id (snd (deliver_all id evs (start command cwd id description w)))) =
    {| status := 200; body := StopOk |} ∧
  killed (snd (stop id
            (snd (deliver_all id evs (start command cwd id description w))))) =
    killed w ++ [next_handle w].
Proof.
  intros Hd.
  destruct (start_full command cwd id description w)
    as (Hr & Hreg & Hk & _).
  destruct (start command cwd id description w) as [r0 w0].
  cbn [fst snd] in *. subst r0.
  pose proof (deliver_all_promise id evs fresh_run w0 eq_refl) as Hp.
  destruct (deliver_all_full id evs fresh_run w0)
    as [(Hk' & _) Ha].
  destruct (deliver_all id evs (fresh_run, w0)) as [r1 w1].
  cbn [fst snd] in *.
  assert (Hl : activeProcesses w1 !! id = Some (next_handle w)).
  { rewrite Ha, has_close_data by done.
    rewrite Hreg. apply lookup_insert_eq. }
  split; [|split; [done|]].
  - rewrite Hp, <- (app_nil_r evs). by rewrite outcome_of_data.
  - unfold stop. rewrite Hl. cbn. split; [done | congruence].
Qed.

Lemma running_process_can_be_stopped_witness :
  activeProcesses
    (snd (deliver_all (js "41") [StdoutData (js "Cloning")]
            (start (js "git fetch --all") (js "/srv/repos/app") (js "41")
               None empty_world))) !! js "41" = Some 1%positive.
Proof.
  apply (running_process_can_be_stopped (js "git fetch --all")
           (js "/srv/repos/app") (js "41") None empty_world
           [StdoutData (js "Cloning")]).
  reflexivity.
Defined.

Lemma deliver_data_ids id evs rest r w :
  forallb is_data evs = true →
  promise r = Pending →
  ∃ out r',
    deliver_all id (evs ++ rest) (r, w) =
      deliver_all id rest (r', emit_all out w) ∧
    promise r' = Pending ∧
    Forall (fun e => commandId e = id) out.
Proof.
  revert r w. induction evs as [|ev evs IH]; intros r w Hd Hp.
  - exists [], r. by rewrite emit_all_nil.
  - cbn [forallb] in Hd. apply andb_true_iff in Hd as [Hev Hd].
    destruct ev as [data|data|code|e]; try discriminate Hev;
      cbn [app deliver_all deliver].
    + unfold on_stdout.
      pose proof (processOutput_ids (stdoutBuffer r) data Stdout id) as Hi.
      destruct (processOutput (stdoutBuffer r) data Stdout id) as [es buf].
      cbn [fst snd promise] in *. rewrite Hp.
      destruct (IH {| stdoutBuffer := buf; stderrBuffer := stderrBuffer r;
                      promise := Pending |} (emit_all es w) Hd eq_refl)
        as (out & r' & Hrun & Hp' & Hi').
      exists (es ++ out), r'. rewrite Hrun, emit_all_app.
      split; [done|]. split; [done | by apply Forall_app].
    + unfold on_stderr.
      pose proof (processOutput_ids (stderrBuffer r) data Stderr id) as Hi.
      destruct (processOutput (stderrBuffer r) data Stderr id) as [es buf].
      cbn [fst snd promise] in *. rewrite Hp.
      destruct (IH {| stdoutBuffer := stdoutBuffer r; stderrBuffer := buf;
                      promise := Pending |} (emit_all es w) Hd eq_refl)
        as (out & r' & Hrun & Hp' & Hi').
      exists (es ++ out), r'. rewrite Hrun, emit_all_app.
      split; [done|]. split; [done | by apply Forall_app].
Qed.

(** When the child of a command closes, whatever it wrote before and
    whatever it delivers afterwards, the identifier is no longer
    registered, nothing was killed, one process was spawned, and the
    emissions are the description, if any, then output events carrying the
    identifier, then the terminal event. *)
Theorem closed_run_cleans_up command cwd id description w evs code rest :
  forallb is_data evs = true →
  activeProcesses
    (snd (executeCommand (evs ++ Close code :: rest) command cwd id
            description w)) = delete id (activeProcesses w) ∧
  killed (snd (executeCommand (evs ++ Close code :: rest) command cwd id
                 description w)) = killed w ∧
  spawned (snd (executeCommand (evs ++ Close code :: rest) command cwd id
                  description w)) = spawned w ++ [(command, cwd)] ∧
  ∃ out,
    emitted (snd (executeCommand (evs ++ Close code :: rest) command cwd id
                    description w)) =
      emitted w ++
      match description with
      | Some d =>
          if truthy d then [commandOutput (simple_event System id (d ++ [LF]))]
          else []
      | None => []
      end ++
      map commandOutput out ++ [commandOutput (terminal_event id code)] ∧
    Forall (fun e => commandId e = id) out.
Proof.
  intros Hd.
  destruct (executeCommand_full (evs ++ Close code :: rest) command cwd id
              description w) as (_ & (Hk & Hs & _) & Ha).
  destruct (start_full command cwd id description w)
    as (Hr & _ & Hk0 & Hs0 & _ & He0).
  rewrite closes_data in Ha by done. cbn [closes] in Ha.
  split; [done|]. split; [congruence|]. split; [congruence|].
  unfold executeCommand in *.
  destruct (start command cwd id description w) as [r0 w0].
  cbn [fst snd] in *. subst r0.
  rewrite settling_data by done. cbn [settling].
  destruct (deliver_data_ids id evs [Close code] fresh_run w0 Hd eq_refl)
    as (out & r' & Hrun & Hp & Hi).
  rewrite Hrun, deliver_all_one. cbn [deliver].
  pose proof (on_close_emitted id code r' (emit_all out w0)) as Hem.
  destruct (on_close id code (r', emit_all out w0)) as [r1 w1].
  cbn [fst snd emit_all emitted keep_listening] in *.
  exists (out ++ flush Stdout id (stdoutBuffer r') ++
          flush Stderr id (stderrBuffer r')).
  split.
  - rewrite Hem, He0, !map_app. cbn [map]. by rewrite <- !app_assoc.
  - rewrite !Forall_app. split; [done|]. split; apply flush_ids.
Qed.

Lemma closed_run_cleans_up_witness :
  activeProcesses
    (snd (executeCommand ([StdoutData (js "ok" ++ [CR])] ++
                          Close (Some 2%Z) :: [])
            (js "npm run build") (js "/srv/repos/app") (js "41") None
            sample_world)) = delete (js "41") (activeProcesses sample_world).
Proof.
  apply (closed_run_cleans_up (js "npm run build") (js "/srv/repos/app")
           (js "41") None sample_world [StdoutData (js "ok" ++ [CR])]
           (Some 2%Z) []).
  reflexivity.
Defined.

(** When a running command is stopped and its child then closes without an
    exit code, the close listener still flushes the buffers and emits a
    terminal event of type [error] whose text names the code null, and the
    promise is rejected with the message naming null; the process was
    killed once and the identifier is not registered. *)
Theorem stopped_process_reports_failure id p r w :
  promise r = Pending →
  activeProcesses w !! id = Some p →
  promise (fst (on_close id None (r, snd (stop id w)))) =
    Rejected {| message := js "Command failed with exit code null" |} ∧
  killed (snd (on_close id None (r, snd (stop id w)))) = killed w ++ [p] ∧
  activeProcesses (snd (on_close id None (r, snd (stop id w)))) !! id = None ∧
  emitted (snd (on_close id None (r, snd (stop id w)))) =
    emitted w ++
    commandOutput (simple_event System id (js "Process stopped by user" ++ [LF]))
    :: map commandOutput
         (flush Stdout id (stdoutBuffer r) ++ flush Stderr id (stderrBuffer r) ++
          [simple_event Error id
             (js "Process finished with exit code: null" ++ [LF])]).
Proof.
  intros Hp Hl. rewrite on_close_emitted.
  assert (Hs : stop id w =
            ({| status := 200; body := StopOk |},
             emit (commandOutput (simple_event System id
                     (js "Process stopped by user" ++ [LF])))
               (set_registry (delete id (activeProcesses w)) (kill p w)))).
  { unfold stop. by rewrite Hl. }
  rewrite Hs. cbn [fst snd emit set_registry kill killed activeProcesses emitted].
  split; [|split; [done|]; split; [apply on_close_removes|]].
  - unfold on_close. cbn [fst promise]. by rewrite Hp.
  - by rewrite <- app_assoc.
Qed.

Lemma stopped_process_reports_failure_witness :
  killed (snd (on_close (js "41") None
                 (sample_run, snd (stop (js "41") sample_world)))) =
    [7%positive].
Proof.
  apply (stopped_process_reports_failure (js "41") 7%positive sample_run
           sample_world); reflexivity.
Defined.

(** If the close of a child is delivered after its error, the promise
    stays rejected with the error, but the close listener still flushes
    the buffers, emits a terminal event and removes the identifier from
    the registry. *)
Theorem close_after_error id code e r w :
  promise r = Pending →
  promise (fst (on_close id code (on_error e (r, w)))) = Rejected e ∧
  activeProcesses (snd (on_close id code (on_error e (r, w)))) !! id = None ∧
  emitted (snd (on_close id code (on_error e (r, w)))) =
    emitted w ++
    map commandOutput
      (flush Stdout id (stdoutBuffer r) ++ flush Stderr id (stderrBuffer r) ++
       [terminal_event id code]).
Proof.
  intros Hp. split; [|split].
  - cbn. by rewrite Hp.
  - apply on_close_removes.
  - cbn [on_error]. by rewrite on_close_emitted.
Qed.

Lemma close_after_error_witness :
  promise (fst (on_close (js "41") (Some 0%Z)
                  (on_error {| message := js "spawn ENOENT" |}
                     (sample_run, sample_world)))) =
    Rejected {| message := js "spawn ENOENT" |}.
Proof.
  apply (close_after_error (js "41") (Some 0%Z)
           {| message := js "spawn ENOENT" |} sample_run sample_world).
  reflexivity.
Defined.

(** A stop request for a registered identifier kills the process
    registered under it and no other, removes that identifier and no other,
    emits one system event and answers success; a second stop request for
    the same identifier answers 404 and changes nothing. *)
Theorem stop_targets_one id p w :
  activeProcesses w !! id = Some p →
  fst (stop id w) = {| status := 200; body := StopOk |} ∧
  killed (snd (stop id w)) = killed w ++ [p] ∧
  activeProcesses (snd (stop id w)) !! id = None ∧
  (∀ id', id' ≠ id →
     activeProcesses (snd (stop id w)) !! id' = activeProcesses w !! id') ∧
  emitted (snd (stop id w)) =
    emitted w ++
    [commandOutput
       (simple_event System id (js "Process stopped by user" ++ [LF]))] ∧
  stop id (snd (stop id w)) =
    ({| status := 404; body := Failure (js "Process not found") |},
     snd (stop id w)).
Proof.
  intros Hl.
  assert (Hs : stop id w =
            ({| status := 200; body := StopOk |},
             emit (commandOutput (simple_event System id
                     (js "Process stopped by user" ++ [LF])))
               (set_registry (delete id (activeProcesses w)) (kill p w)))).
  { unfold stop. by rewrite Hl. }
  rewrite Hs. cbn [fst snd emit set_registry kill killed activeProcesses emitted].
  split; [done|]. split; [done|]. split; [apply lookup_delete_eq|].
  split; [intros id' Hne; by apply lookup_delete_ne|]. split; [done|].
  unfold stop. cbn [emit set_registry activeProcesses].
  by rewrite lookup_delete_eq.
Qed.

Lemma stop_targets_one_witness :
  killed (snd (stop (js "41") sample_world)) = [7%positive].
Proof.
  apply (stop_targets_one (js "41") 7%positive sample_world). reflexivity.
Defined.

Lemma emitted_foldl_kill l w :
  emitted (foldl (fun w proc => kill proc w) w l) = emitted w ∧
  spawned (foldl (fun w proc => kill proc w) w l) = spawned w.
Proof.
  revert w. induction l as [|p l IH]; intros w; [done|].
  cbn [foldl]. by destruct (IH (kill p w)) as [-> ->].
Qed.

(** The shutdown listener kills the registered processes only, each
    registered identifier accounting for one kill, and emits and spawns
    nothing. *)
Theorem killAll_only_registered w :
  (∀ p, p ∈ killed (killAll w) →
     p ∈ killed w ∨ ∃ id, activeProcesses w !! id = Some p) ∧
  length (killed (killAll w)) = length (killed w) + size (activeProcesses w) ∧
  emitted (killAll w) = emitted w ∧
  spawned (killAll w) = spawned w.
Proof.
  unfold killAll. cbn. rewrite killed_foldl.
  destruct (emitted_foldl_kill (map snd (map_to_list (activeProcesses w))) w)
    as [He Hs].
  split; [|split; [|done]].
  - intros p [Hp|Hp]%elem_of_app; [by left|]. right.
    apply list_elem_of_fmap in Hp as ([id p'] & -> & Hin).
    exists id. by apply elem_of_map_to_list.
  - rewrite length_app, length_map. f_equal. apply length_map_to_list.
Qed.

Lemma killAll_only_registered_witness :
  length (killed (killAll sample_world)) = 1.
Proof.
  destruct (killAll_only_registered sample_world) as (_ & H & _). exact H.
Defined.

(** Two children that write the same chunks to stdout and the same chunks
    to stderr, interleaved differently, and then close with the same code,
    make the runner emit the same stdout events in the same order and the
    same stderr events in the same order. *)
Theorem interleaving_does_not_matter id code w evs1 evs2 :
  forallb is_data evs1 = true →
  forallb is_data evs2 = true →
  stdout_chunks evs1 = stdout_chunks evs2 →
  stderr_chunks evs1 = stderr_chunks evs2 →
  ∃ out1 out2,
    emitted (snd (deliver_all id (evs1 ++ [Close code]) (fresh_run, w))) =
      emitted w ++ map commandOutput out1 ++
      [commandOutput (terminal_event id code)] ∧
    emitted (snd (deliver_all id (evs2 ++ [Close code]) (fresh_run, w))) =
      emitted w ++ map commandOutput out2 ++
      [commandOutput (terminal_event id code)] ∧
    filter (fun e => outputType e = Stdout) out1 =
      filter (fun e => outputType e = Stdout) out2 ∧
    filter (fun e => outputType e = Stderr) out1 =
      filter (fun e => outputType e = Stderr) out2.
Proof.
  intros Hd1 Hd2 Ho He.
  destruct (run_streams id evs1 code w Hd1) as (out1 & E1 & O1 & R1).
  destruct (run_streams id evs2 code w Hd2) as (out2 & E2 & O2 & R2).
  exists out1, out2. split; [done|]. split; [done|].
  by rewrite O1, O2, R1, R2, Ho, He.
Qed.

Lemma interleaving_does_not_matter_witness :
  ∃ out1 out2,
    emitted (snd (deliver_all (js "41")
                    ([StdoutData (js "a" ++ [CR]); StderrData (js "b" ++ [CR])]
                     ++ [Close (Some 0%Z)]) (fresh_run, empty_world))) =
      emitted empty_world ++ map commandOutput out1 ++
      [commandOutput (terminal_event (js "41") (Some 0%Z))] ∧
    emitted (snd (deliver_all (js "41")
                    ([StderrData (js "b" ++ [CR]); StdoutData (js "a" ++ [CR])]
                     ++ [Close (Some 0%Z)]) (fresh_run, empty_world))) =
      emitted empty_world ++ map commandOutput out2 ++
      [commandOutput (terminal_event (js "41") (Some 0%Z))] ∧
    filter (fun e => outputType e = Stdout) out1 =
      filter (fun e => outputType e = Stdout) out2 ∧
    filter (fun e => outputType e = Stderr) out1 =
      filter (fun e => outputType e = Stderr) out2.
Proof.
  apply (interleaving_does_not_matter (js "41") (Some 0%Z) empty_world
           [StdoutData (js "a" ++ [CR]); StderrData (js "b" ++ [CR])]
           [StderrData (js "b" ++ [CR]); StdoutData (js "a" ++ [CR])]);
    reflexivity.
Defined.

(** * Repository names *)

Lemma remove_first_absent p s : includes s p = false → remove_first p s = s.
Proof.
  induction s as [|c s IH]; cbn [includes remove_first].
  - rewrite orb_false_r. by intros ->.
  - intros [Hs Hi]%orb_false_iff. rewrite Hs. by rewrite IH.
Qed.

Lemma remove_first_present p s :
  includes s p = true →
  ∃ pre post,
    s = pre ++ p ++ post ∧ remove_first p s = pre ++ post ∧
    ∀ pre' post', s = pre' ++ p ++ post' → length pre ≤ length pre'.
Proof.
  induction s as [|c s IH].
  - cbn [includes remove_first]. rewrite orb_false_r. intros Hs. rewrite Hs.
    apply startsWith_spec in Hs as [post Hs].
    symmetry in Hs. apply app_eq_nil in Hs as [-> ->].
    exists [], []. split; [done|]. split; [done|]. intros; cbn; lia.
  - cbn [includes remove_first]. destruct (startsWith (c :: s) p) eqn:Hs.
    + intros _. apply startsWith_spec in Hs as [post Hs].
      exists [], post. split; [done|]. split.
      * rewrite Hs. cbn [app]. by rewrite drop_app_length.
      * intros; cbn; lia.
    + cbn [orb]. intros Hi. destruct (IH Hi) as (pre & post & -> & Hr & Hmin).
      exists (c :: pre), post. split; [done|]. split; [by rewrite Hr|].
      intros pre' post' Heq. destruct pre' as [|c' pre'].
      * assert (startsWith (c :: pre ++ p ++ post) p = true); [|congruence].
        apply startsWith_spec. by exists post'.
      * cbn [app] in Heq. injection Heq as _ Heq.
        specialize (Hmin _ _ Heq). cbn. lia.
Qed.

Lemma remove_first_cases p s :
  remove_first p s = s ∧ includes s p = false ∨
  ∃ pre post,
    s = pre ++ p ++ post ∧ remove_first p s = pre ++ post ∧
    ∀ pre' post', s = pre' ++ p ++ post' → length pre ≤ length pre'.
Proof.
  destruct (includes s p) eqn:Hi.
  - right. by apply remove_first_present.
  - left. split; [by apply remove_first_absent | done].
Qed.

Lemma split_last_suffix sep s :
  ∃ before, s = before ++ default [] (last (split sep s)).
Proof.
  pose proof (join_split sep s) as Hj.
  destruct (split_snoc sep s) as (init & lst & Hs). rewrite Hs in *.
  rewrite last_snoc. simpl. destruct init as [|i init].
  - exists []. by rewrite <- Hj.
  - rewrite join_snoc in Hj by done.
    exists (join sep (i :: init) ++ [sep]). by rewrite <- Hj, <- app_assoc.
Qed.

Lemma final_segment_no_slash gitUrl : SLASH ∉ final_segment gitUrl.
Proof.
  unfold final_segment, pop. cbn [snd].
  pose proof (split_segments SLASH gitUrl) as H.
  destruct (split_snoc SLASH gitUrl) as (init & lst & Hs). rewrite Hs in *.
  rewrite last_snoc. rewrite Forall_app, Forall_singleton in H. apply H.
Qed.

Lemma repoName_of_unfold gitUrl :
  repoName_of gitUrl = remove_first (js ".git") (final_segment gitUrl).
Proof. reflexivity. Qed.

(** The repository name holds no slash and is not longer than the URL; a
    URL that ends with a slash gives the empty name, and a URL without
    slash is its own last segment. *)
Theorem repoName_no_slash gitUrl :
  (SLASH ∉ repoName_of gitUrl) ∧
  length (repoName_of gitUrl) ≤ length gitUrl ∧
  (∀ before, gitUrl = before ++ [SLASH] → repoName_of gitUrl = []) ∧
  (SLASH ∉ gitUrl → final_segment gitUrl = gitUrl).
Proof.
  rewrite repoName_of_unfold.
  pose proof (final_segment_no_slash gitUrl) as Hno.
  assert (Hlen : length (final_segment gitUrl) ≤ length gitUrl).
  { destruct (split_last_suffix SLASH gitUrl) as (before & Hsuf).
    change (default [] (last (split SLASH gitUrl)))
      with (final_segment gitUrl) in Hsuf.
    apply (f_equal length) in Hsuf. rewrite length_app in Hsuf. lia. }
  split; [|split; [|split]].
  - destruct (remove_first_cases (js ".git") (final_segment gitUrl))
      as [[-> _]|(pre & post & Hs & -> & _)]; [done|].
    rewrite Hs in Hno. rewrite !not_elem_of_app in Hno.
    apply not_elem_of_app. tauto.
  - destruct (remove_first_cases (js ".git") (final_segment gitUrl))
      as [[-> _]|(pre & post & Hs & -> & _)]; [done|].
    rewrite Hs, !length_app in Hlen. rewrite length_app. lia.
  - intros b ->. unfold final_segment, pop. cbn [snd].
    destruct (split_snoc SLASH b) as (init & lst & Hs).
    rewrite (split_app SLASH b [SLASH] init lst [] [[]] Hs eq_refl).
    change (init ++ [lst ++ []; []]) with (init ++ [lst ++ []] ++ [[]]).
    rewrite app_assoc, last_snoc. reflexivity.
  - intros Hn. unfold final_segment, pop. cbn [snd].
    by rewrite (split_no_sep _ _ Hn).
Qed.

Lemma repoName_no_slash_witness :
  repoName_of (js "https://example.org/team/app/") = [].
Proof.
  destruct (repoName_no_slash (js "https://example.org/team/app/"))
    as (_ & _ & H & _).
  apply (H (js "https://example.org/team/app")). reflexivity.
Defined.

(** The repository name is the last segment of the URL when .git does not
    occur in it, and otherwise the last segment with its first occurrence
    of .git cut out; so a .git suffix is stripped exactly when .git does
    not occur earlier in the segment. *)
Theorem repoName_cuts_first_git gitUrl :
  (¬ contains (final_segment gitUrl) (js ".git") →
     repoName_of gitUrl = final_segment gitUrl) ∧
  (contains (final_segment gitUrl) (js ".git") →
     ∃ pre post,
       final_segment gitUrl = pre ++ js ".git" ++ post ∧
       repoName_of gitUrl = pre ++ post ∧
       ∀ pre' post', final_segment gitUrl = pre' ++ js ".git" ++ post' →
                     length pre ≤ length pre') ∧
  (∀ base, final_segment gitUrl = base ++ js ".git" →
     ¬ contains (base ++ js ".gi") (js ".git") →
     repoName_of gitUrl = base).
Proof.
  rewrite repoName_of_unfold.
  destruct (remove_first_cases (js ".git") (final_segment gitUrl))
    as [[Hr Hi]|(pre & post & Hs & Hr & Hmin)].
  - split; [done|]. split.
    + intros Hc. apply includes_spec in Hc. congruence.
    + intros base Hb _.
      assert (includes (final_segment gitUrl) (js ".git") = true); [|congruence].
      apply includes_spec. exists base, []. by rewrite app_nil_r.
  - split; [|split].
    + intros Hc. exfalso. apply Hc. by exists pre, post.
    + intros _. by exists pre, post.
    + intros base Hb Hn. rewrite Hr.
      destruct post as [|x post _] using rev_ind.
      * rewrite app_nil_r in *. rewrite Hb in Hs.
        by apply app_inv_tail in Hs as ->.
      * exfalso. apply Hn. exists pre, post. rewrite Hb in Hs.
        change (js ".git") with (js ".gi" ++ [116%N]) in Hs at 1.
        rewrite !app_assoc in Hs. apply app_inj_tail in Hs as [Hs _].
        by rewrite Hs, <- !app_assoc.
Qed.

Lemma repoName_cuts_first_git_witness :
  repoName_of (js "https://example.org/team/app.git") = js "app".
Proof.
  destruct (repoName_cuts_first_git (js "https://example.org/team/app.git"))
    as (_ & _ & H).
  apply (H (js "app")); [reflexivity|].
  intros Hc. apply includes_spec in Hc. discriminate Hc.
Defined.

(** * Further properties of the sequencer *)

Lemma outcome_closes behaviour :
  match outcome_of behaviour with
  | Resolved _ => closes behaviour = true
  | Pending => closes behaviour = false
  | Rejected _ => True
  end.
Proof.
  induction behaviour as [|ev evs IH]; [done|].
  destruct ev as [data|data|code|e]; cbn [outcome_of closes]; try done.
  by destruct (is_zero code).
Qed.

Lemma step_full E command cwd id description w :
  ∃ w',
    step E command cwd id description w =
      (match outcome_of (child E command cwd) with
       | Resolved code => Ok code
       | Rejected e => Throw e
       | Pending => Suspended
       end, w') ∧
    spawned w' = spawned w ++ [(command, cwd)] ∧
    killed w' = killed w ∧
    (∃ evs, emitted w' = emitted w ++ map commandOutput evs ∧
            Forall (fun e => commandId e = id) evs) ∧
    (∀ id', id' ≠ id →
       activeProcesses w' !! id' = activeProcesses w !! id') ∧
    activeProcesses w' !! id =
      (if closes (child E command cwd) then None else Some (next_handle w)).
Proof.
  unfold step, await.
  destruct (executeCommand_full (child E command cwd) command cwd id
              (Some description) w)
    as (Ho & (Hk & Hs & _ & evs & Hev & Hids) & Ha).
  destruct (start_full command cwd id (Some description) w)
    as (_ & _ & Hk0 & Hs0 & _ & He0).
  destruct (executeCommand (child E command cwd) command cwd id
              (Some description) w) as [o w'].
  cbn [fst snd] in *. subst o. exists w'.
  split; [by destruct (outcome_of _)|]. split; [congruence|].
  split; [congruence|]. split; [|split].
  - rewrite Hev, He0. destruct (truthy description).
    + exists (simple_event System id (description ++ [LF]) :: evs).
      split; [by rewrite <- app_assoc | by constructor].
    + exists evs. by rewrite app_nil_r.
  - intros id' Hne. rewrite Ha. destruct (closes _).
    + by apply lookup_delete_ne.
    + by apply lookup_insert_ne.
  - rewrite Ha. destruct (closes _).
    + apply lookup_delete_eq.
    + apply lookup_insert_eq.
Qed.

Lemma run_steps_full {B} E id steps (K : M B) w :
  ∃ w' n,
    spawned w' = spawned w ++ map fst (take n steps) ∧
    killed w' = killed w ∧
    (∃ evs, emitted w' = emitted w ++ map commandOutput evs ∧
            Forall (fun e => commandId e = id) evs) ∧
    (∀ id', id' ≠ id →
       activeProcesses w' !! id' = activeProcesses w !! id') ∧
    Forall (fun s => resolves E (fst s)) (take (pred n) steps) ∧
    ((n = length steps ∧
      Forall (fun s => resolves E (fst s)) steps ∧
      run_steps E id steps K w = K w' ∧
      (steps = [] → w' = w) ∧
      (steps ≠ [] → activeProcesses w' !! id = None)) ∨
     (0 < n ≤ length steps ∧
      ∃ s, steps !! pred n = Some s ∧
        ((∃ e, outcome_of (child E (fst (fst s)) (snd (fst s))) = Rejected e ∧
               run_steps E id steps K w = (Throw e, w')) ∨
         (outcome_of (child E (fst (fst s)) (snd (fst s))) = Pending ∧
          run_steps E id steps K w = (Suspended, w') ∧
          is_Some (activeProcesses w' !! id))))).
Proof.
  revert w. induction steps as [|[[command cwd] description] rest IH]; intros w.
  - exists w, 0. cbn.
    split; [by rewrite app_nil_r|]. split; [done|].
    split; [exists []; split; [by rewrite app_nil_r | constructor]|].
    split; [done|]. split; [constructor|].
    left. split; [done|]. split; [constructor|]. by repeat split.
  - cbn [run_steps]. unfold bind.
    destruct (step_full E command cwd id description w)
      as (w1 & Hstep & Hsp & Hk & (evs & Hev & Hids) & Hoth & Hid).
    rewrite Hstep. pose proof (outcome_closes (child E command cwd)) as Hoc.
    destruct (outcome_of (child E command cwd)) as [|code|e] eqn:Ho.
    + exists w1, 1. cbn [take map pred length]. rewrite Hoc in Hid.
      split; [done|]. split; [done|]. split; [by exists evs|].
      split; [done|]. split; [constructor|]. right. split; [lia|].
      exists (command, cwd, description). split; [done|].
      right. split; [done|]. split; [done|]. by rewrite Hid.
    + destruct (IH w1) as (w' & n & Hsp' & Hk' & (evs' & Hev' & Hids')
                            & Hoth' & Hres & Hcase).
      exists w', (S n). cbn [take map length].
      split; [rewrite Hsp', Hsp; by rewrite <- app_assoc|].
      split; [congruence|]. split.
      { exists (evs ++ evs'). split; [|by apply Forall_app].
        by rewrite Hev', Hev, map_app, app_assoc. }
      split. { intros id' Hne. rewrite Hoth' by done. by apply Hoth. }
      assert (Hr0 : resolves E (command, cwd)) by (by exists code).
      split.
      { destruct n as [|n]; cbn [pred take]; [constructor|].
        constructor; [done|]. exact Hres. }
      destruct Hcase as [(Hn & Hall & Hrun & Hnil & Hcons)
                         |(Hn & s & Hs & Hrun)].
      * left. split; [congruence|]. split; [by constructor|].
        split; [done|]. split; [done|]. intros _.
        destruct rest as [|s rest].
        -- rewrite (Hnil eq_refl), Hid. by rewrite Hoc.
        -- by apply Hcons.
      * right. split; [lia|]. exists s. split; [|done].
        destruct n as [|n]; [lia|]. done.
    + exists w1, 1. cbn [take map pred length].
      split; [done|]. split; [done|]. split; [by exists evs|].
      split; [done|]. split; [constructor|]. right. split; [lia|].
      exists (command, cwd, description). split; [done|].
      left. by exists e.
Qed.

Lemma emit_footprint id e w :
  emission_id e = id → footprint id w (emit e w).
Proof.
  intros He. split; [|done]. exists [e]. split; [done | by constructor].
Qed.

Lemma footprint_trans id w1 w2 w3 :
  footprint id w1 w2 → footprint id w2 w3 → footprint id w1 w3.
Proof.
  intros ((e1 & E1 & F1) & K1 & R1) ((e2 & E2 & F2) & K2 & R2).
  split; [|split].
  - exists (e1 ++ e2). split; [|by apply Forall_app].
    by rewrite E2, E1, app_assoc.
  - congruence.
  - intros id' Hne. rewrite R2 by done. by apply R1.
Qed.

Lemma outputs_footprint id w w' :
  killed w' = killed w →
  (∃ evs, emitted w' = emitted w ++ map commandOutput evs ∧
          Forall (fun e => commandId e = id) evs) →
  (∀ id', id' ≠ id → activeProcesses w' !! id' = activeProcesses w !! id') →
  footprint id w w'.
Proof.
  intros Hk (evs & Hev & Hids) Hoth. split; [|done].
  exists (map commandOutput evs). split; [done|].
  apply Forall_map. exact Hids.
Qed.

Lemma first_failure_unique {A} (P : A → Prop) (l : list A) k k' x x' :
  l !! k = Some x → l !! k' = Some x' →
  Forall P (take k l) → Forall P (take k' l) →
  ¬ P x → ¬ P x' → k = k'.
Proof.
  intros Hk Hk' Hf Hf' Hx Hx'.
  destruct (Nat.lt_trichotomy k k') as [Hlt|[->|Hlt]]; [|done|].
  - exfalso. apply Hx. apply (Forall_lookup_1 _ _ k x Hf').
    by rewrite lookup_take_lt.
  - exfalso. apply Hx'. apply (Forall_lookup_1 _ _ k' x' Hf).
    by rewrite lookup_take_lt.
Qed.

Lemma deploy_cases E gitUrl branch w :
  ∃ w1 n evs,
    spawned w1 = spawned w ++ take n (plan E gitUrl branch) ∧
    killed w1 = killed w ∧
    emitted w1 = emitted w ++ map commandOutput evs ∧
    Forall (fun e => commandId e = fresh_id E) evs ∧
    (∀ id', id' ≠ fresh_id E →
       activeProcesses w1 !! id' = activeProcesses w !! id') ∧
    Forall (resolves E) (take (pred n) (plan E gitUrl branch)) ∧
    ((n = 4 ∧
      Forall (resolves E) (plan E gitUrl branch) ∧
      deploy E gitUrl branch w =
        (Some {| status := 200; body := DeployOk (fresh_id E) |},
         emit (commandFinished (fresh_id E) 0) w1) ∧
      activeProcesses w1 !! fresh_id E = None) ∨
     (0 < n ≤ 4 ∧
      ∃ s, plan E gitUrl branch !! pred n = Some s ∧
        ((∃ e, outcome_of (child E (fst s) (snd s)) = Rejected e ∧
               deploy E gitUrl branch w =
                 (Some {| status := 500; body := Failure (message e) |},
                  emit (commandFinished (fresh_id E) 1)
                    (emit (commandOutput (simple_event Stderr (fresh_id E)
                       (js "Error: " ++ message e ++ [LF]))) w1))) ∨
         (outcome_of (child E (fst s) (snd s)) = Pending ∧
          deploy E gitUrl branch w = (None, w1) ∧
          is_Some (activeProcesses w1 !! fresh_id E))))).
Proof.
  set (id := fresh_id E).
  set (start_event := simple_event System id
         (js "Starting deployment process for " ++ repoName_of gitUrl
          ++ js "..." ++ [LF])).
  destruct (run_steps_full E id (deploy_steps E gitUrl branch)
              (io_emit (commandFinished id 0) >>
               ret {| status := 200; body := DeployOk id |})
              (emit (commandOutput start_event) w))
    as (w1 & n & Hsp & Hk & (evs & Hev & Hids) & Hoth & Hres & Hcase).
  assert (Hd : deploy E gitUrl branch w =
            match run_steps E id (deploy_steps E gitUrl branch)
                    (io_emit (commandFinished id 0) >>
                     ret {| status := 200; body := DeployOk id |})
                    (emit (commandOutput start_event) w) with
            | (Ok r, w') => (Some r, w')
            | (Throw error, w') =>
                let '(r, w'') := deploy_catch id error w' in (Some r, w'')
            | (Suspended, w') => (None, w')
            end).
  { unfold deploy. fold id. by rewrite deploy_try_steps. }
  exists w1, n, (start_event :: evs). unfold plan.
  rewrite (firstn_map fst), (firstn_map fst), !Forall_map.
  split; [done|]. split; [done|].
  split; [rewrite Hev; cbn; by rewrite <- app_assoc|].
  split; [by constructor|]. split; [done|]. split; [done|].
  destruct Hcase as [(Hn & Hall & Hrun & _ & Hcons)
                     |(Hn & s & Hs & [(e & Ho & Hrun)|(Ho & Hrun & Hreg)])].
  - left. split; [done|]. split; [done|]. split.
    + by rewrite Hd, Hrun.
    + by apply Hcons.
  - right. split; [done|]. exists (fst s).
    split; [by rewrite list_lookup_fmap, Hs|]. left. exists e.
    split; [done|]. by rewrite Hd, Hrun.
  - right. split; [done|]. exists (fst s).
    split; [by rewrite list_lookup_fmap, Hs|]. right.
    split; [done|]. split; [|done]. by rewrite Hd, Hrun.
Qed.

(** When the four steps all resolve, the handler answers 200 with the
    identifier of the deployment, has spawned the four steps in order, ends
    with the completion event with exit code 0, which is the only one, and
    leaves the identifier unregistered. *)
Theorem deploy_success E gitUrl branch w :
  Forall (resolves E) (plan E gitUrl branch) →
  fst (deploy E gitUrl branch w) =
    Some {| status := 200; body := DeployOk (fresh_id E) |} ∧
  spawned (snd (deploy E gitUrl branch w)) =
    spawned w ++ plan E gitUrl branch ∧
  (∃ evs,
     emitted (snd (deploy E gitUrl branch w)) =
       emitted w ++ map commandOutput evs ++
       [commandFinished (fresh_id E) 0]) ∧
  activeProcesses (snd (deploy E gitUrl branch w)) !! fresh_id E = None.
Proof.
  intros Hall.
  destruct (deploy_cases E gitUrl branch w)
    as (w1 & n & evs & Hsp & _ & Hev & _ & _ & _ & Hcase).
  destruct Hcase as [(-> & _ & Hd & Hreg)|(_ & s & Hs & Hfail)].
  - rewrite Hd. cbn [fst snd emit spawned emitted activeProcesses].
    split; [done|]. split; [by rewrite Hsp|].
    split; [|done]. exists evs. by rewrite Hev, <- app_assoc.
  - exfalso. apply (Forall_lookup_1 _ _ _ _ Hall) in Hs as [code Hc].
    destruct Hfail as [(e & Ho & _)|(Ho & _)]; congruence.
Qed.

Lemma deploy_success_witness :
  fst (deploy success_env (js "https://example.org/team/app.git") (js "main")
         empty_world) =
    Some {| status := 200; body := DeployOk (js "1700000000001") |} ∧
  spawned (snd (deploy success_env (js "https://example.org/team/app.git")
                  (js "main") empty_world)) =
    [ (js "git fetch --all", js "/srv/repos/app");
      (js "git checkout main && git pull origin main", js "/srv/repos/app");
      (js "npm install", js "/srv/repos/app");
      (js "npm run build", js "/srv/repos/app") ].
Proof.
  destruct (deploy_success success_env (js "https://example.org/team/app.git")
              (js "main") empty_world) as (Hr & Hs & _).
  - repeat constructor; exists (Some 0%Z); reflexivity.
  - split; [exact Hr | exact Hs].
Defined.

(** When a step never settles and the steps before it have resolved, the
    handler sends no response and emits no completion event, has spawned
    the steps up to that one and no later step, and the identifier stays
    registered, so that the process can still be stopped. *)
Theorem deploy_suspended E gitUrl branch w k s :
  plan E gitUrl branch !! k = Some s →
  Forall (resolves E) (take k (plan E gitUrl branch)) →
  outcome_of (child E (fst s) (snd s)) = Pending →
  fst (deploy E gitUrl branch w) = None ∧
  spawned (snd (deploy E gitUrl branch w)) =
    spawned w ++ take (S k) (plan E gitUrl branch) ∧
  (∃ evs,
     emitted (snd (deploy E gitUrl branch w)) =
       emitted w ++ map commandOutput evs) ∧
  is_Some (activeProcesses (snd (deploy E gitUrl branch w)) !! fresh_id E).
Proof.
  intros Hk Hres Ho.
  assert (Hnot : ¬ resolves E s) by (intros [code Hc]; congruence).
  destruct (deploy_cases E gitUrl branch w)
    as (w1 & n & evs & Hsp & _ & Hev & _ & _ & Hres' & Hcase).
  destruct Hcase as [(_ & Hall & _)|(Hn & s' & Hs' & Hfail)].
  - exfalso. apply Hnot. by apply (Forall_lookup_1 _ _ _ _ Hall Hk).
  - assert (Hnot' : ¬ resolves E s').
    { intros [code Hc]. destruct Hfail as [(e & Ho' & _)|(Ho' & _)]; congruence. }
    pose proof (first_failure_unique _ _ _ _ _ _ Hk Hs' Hres Hres' Hnot Hnot')
      as Hkn.
    assert (s' = s) as -> by congruence.
    destruct Hfail as [(e & Ho' & _)|(_ & Hd & Hreg)]; [congruence|].
    rewrite Hd. cbn [fst snd]. split; [done|].
    split; [rewrite Hsp; f_equal; f_equal; lia|].
    split; [by exists evs | done].
Qed.

Lemma deploy_suspended_witness :
  fst (deploy hanging_env (js "https://example.org/team/app.git") (js "main")
         empty_world) = None ∧
  spawned (snd (deploy hanging_env (js "https://example.org/team/app.git")
                  (js "main") empty_world)) =
    [ (js "git fetch --all", js "/srv/repos/app");
      (js "git checkout main && git pull origin main", js "/srv/repos/app") ].
Proof.
  destruct (deploy_suspended hanging_env
              (js "https://example.org/team/app.git") (js "main") empty_world
              1 (js "git checkout main && git pull origin main",
                 js "/srv/repos/app"))
    as (Hr & Hs & _).
  - reflexivity.
  - repeat constructor; exists (Some 0%Z); reflexivity.
  - reflexivity.
  - split; [exact Hr | exact Hs].
Defined.

(** Whatever the commands do, a deployment spawns a non-empty prefix of its
    four steps, in order, and a step is spawned only when all the steps
    before it have resolved. *)
Theorem deploy_spawns_prefix E gitUrl branch w :
  ∃ n, 1 ≤ n ≤ 4 ∧
    spawned (snd (deploy E gitUrl branch w)) =
      spawned w ++ take n (plan E gitUrl branch) ∧
    Forall (resolves E) (take (pred n) (plan E gitUrl branch)).
Proof.
  destruct (deploy_cases E gitUrl branch w)
    as (w1 & n & evs & Hsp & _ & _ & _ & _ & Hres & Hcase).
  exists n.
  destruct Hcase as [(-> & _ & Hd & _)
                     |(Hn & s & _ & [(e & _ & Hd)|(_ & Hd & _)])];
    rewrite Hd; cbn [snd emit spawned]; (split; [lia|]); by split.
Qed.

(** Whatever the commands do, every emission of a deployment carries the
    identifier of that deployment, no process is killed, and the registry
    entries of all other identifiers are left as they were. *)
Theorem deploy_footprint E gitUrl branch w :
  footprint (fresh_id E) w (snd (deploy E gitUrl branch w)).
Proof.
  destruct (deploy_cases E gitUrl branch w)
    as (w1 & n & evs & _ & Hk & Hev & Hids & Hoth & _ & Hcase).
  assert (Hf : footprint (fresh_id E) w w1).
  { apply outputs_footprint; [done| by exists evs | done]. }
  destruct Hcase as [(_ & _ & Hd & _)
                     |(_ & s & _ & [(e & _ & Hd)|(_ & Hd & _)])];
    rewrite Hd; cbn [snd]; [| |done].
  - eapply footprint_trans; [exact Hf|]. by apply emit_footprint.
  - eapply footprint_trans; [exact Hf|].
    eapply footprint_trans; by apply emit_footprint.
Qed.

(** * Repository listing *)

Lemma filter_directories_ok E F files :
  (∀ f, f ∈ files → ∃ b, isDirectory F (path_join E (REPOS_DIR E) f) = inr b) →
  filter_directories E F files = inr (List.filter (is_dir E F) files).
Proof.
  induction files as [|file rest IH]; intros Hall; [done|].
  cbn [filter_directories List.filter]. unfold is_dir at 1.
  destruct (Hall file) as [b Hb]; [apply list_elem_of_here|].
  rewrite Hb, IH.
  - by destruct b.
  - intros f Hf. apply Hall. by apply list_elem_of_further.
Qed.

Lemma filter_directories_error E F before file after e :
  (∀ f, f ∈ before →
     ∃ b, isDirectory F (path_join E (REPOS_DIR E) f) = inr b) →
  isDirectory F (path_join E (REPOS_DIR E) file) = inl e →
  filter_directories E F (before ++ file :: after) = inl e.
Proof.
  induction before as [|g before IH]; intros Hall He.
  - cbn. by rewrite He.
  - cbn [app filter_directories].
    destruct (Hall g) as [b Hb]; [apply list_elem_of_here|].
    rewrite Hb, IH; [done| |done].
    intros f Hf. apply Hall. by apply list_elem_of_further.
Qed.

(** The listing answers 200 with the entries of the repository root that
    are directories, in the order of the directory listing, when the root
    can be read and every entry examined; it answers 500 with the message
    of the error when the root cannot be read, and with the message of the
    first entry, in listing order, that cannot be examined. *)
Theorem repos_lists_directories E F :
  (∀ files,
     readdirSync F (REPOS_DIR E) = inr files →
     (∀ f, f ∈ files →
        ∃ b, isDirectory F (path_join E (REPOS_DIR E) f) = inr b) →
     repos E F =
       {| repos_status := 200;
          repos_json := ReposOk (List.filter (is_dir E F) files) |}) ∧
  (∀ e,
     readdirSync F (REPOS_DIR E) = inl e →
     repos E F =
       {| repos_status := 500; repos_json := ReposError (message e) |}) ∧
  (∀ before file after e,
     readdirSync F (REPOS_DIR E) = inr (before ++ file :: after) →
     (∀ f, f ∈ before →
        ∃ b, isDirectory F (path_join E (REPOS_DIR E) f) = inr b) →
     isDirectory F (path_join E (REPOS_DIR E) file) = inl e →
     repos E F =
       {| repos_status := 500; repos_json := ReposError (message e) |}).
Proof.
  unfold repos. split; [|split].
  - intros files -> Hall. by rewrite filter_directories_ok.
  - by intros e ->.
  - intros before file after e -> Hall He.
    by rewrite (filter_directories_error _ _ _ _ _ e Hall He).
Qed.

Lemma repos_lists_directories_witness :
  repos sample_env sample_fs =
    {| repos_status := 200; repos_json := ReposOk [js "app"; js "site"] |} ∧
  repos sample_env broken_fs =
    {| repos_status := 500;
       repos_json := ReposError (js "ENOENT: no such file or directory") |}.
Proof.
  destruct (repos_lists_directories sample_env sample_fs) as (Hok & _).
  destruct (repos_lists_directories sample_env broken_fs) as (_ & _ & Herr).
  split.
  - apply (Hok [js "app"; js "notes.txt"; js "site"]); [reflexivity|].
    intros f Hf. cbn. case_bool_decide; eauto.
  - apply (Herr [js "app"] (js "gone") [js "site"]
             {| message := js "ENOENT: no such file or directory" |});
      [reflexivity| |reflexivity].
    intros f Hf. apply list_elem_of_singleton in Hf as ->. by exists true.
Defined.

(** * Runs to their end *)

Lemma settling_late evs : settling evs ++ late evs = evs.
Proof.
  induction evs as [|[data|data|code|e] evs IH]; cbn [settling late app];
    by rewrite ?IH.
Qed.


Lemma run_command_settles behaviour command cwd id description w :
  run_command behaviour command cwd id description w =
    deliver_all id (late behaviour)
      (deliver_all id (settling behaviour)
         (start command cwd id description w)).
Proof. unfold run_command. by rewrite <- deliver_all_app, settling_late. Qed.

Lemma start_listening command cwd id description w :
  listening (snd (start command cwd id description w)) = listening w.
Proof. unfold start. by destruct description as [d|]; [destruct (truthy d)|]. Qed.

Lemma deliver_listening id ev r w :
  listening (snd (deliver id ev (r, w))) = listening w.
Proof.
  destruct ev as [data|data|code|e]; cbn [deliver]; [| |done..].
  - unfold on_stdout. by destruct (processOutput _ _ _ _).
  - unfold on_stderr. by destruct (processOutput _ _ _ _).
Qed.

Lemma deliver_all_listening id evs r w :
  listening (snd (deliver_all id evs (r, w))) = listening w.
Proof.
  revert r w. induction evs as [|ev evs IH]; intros r w; [done|].
  cbn [deliver_all]. pose proof (deliver_listening id ev r w) as Hl.
  destruct (deliver id ev (r, w)) as [r1 w1]. cbn [snd] in Hl.
  by rewrite IH.
Qed.

Lemma executeCommand_listening behaviour command cwd id description w :
  ∃ r, listening (snd (executeCommand behaviour command cwd id description w)) =
       listening w ++ [(id, r, late behaviour)].
Proof.
  unfold executeCommand.
  pose proof (start_listening command cwd id description w) as Hs.
  destruct (start command cwd id description w) as [r0 w0].
  pose proof (deliver_all_listening id (settling behaviour) r0 w0) as Hl.
  destruct (deliver_all id (settling behaviour) (r0, w0)) as [r1 w1].
  cbn [fst snd keep_listening listening] in *. exists r1. congruence.
Qed.

(** From a world in which no listener waits, the run of a command is its
    settlement followed by the events its child delivers later. *)
Lemma run_command_drain behaviour command cwd id description w :
  listening w = [] →
  drain (snd (executeCommand behaviour command cwd id description w)) =
    snd (run_command behaviour command cwd id description w).
Proof.
  intros Hw. rewrite run_command_settles. unfold executeCommand.
  pose proof (start_listening command cwd id description w) as Hs.
  destruct (start command cwd id description w) as [r0 w0].
  pose proof (deliver_all_listening id (settling behaviour) r0 w0) as Hl.
  destruct (deliver_all id (settling behaviour) (r0, w0)) as [r1 w1].
  cbn [fst snd] in *. rewrite Hs, Hw in Hl.
  unfold drain. cbn [keep_listening listening]. rewrite Hl.
  cbn [app foldl fst snd].
  replace (stop_listening (keep_listening id r1 (late behaviour) w1)) with w1;
    [done|].
  destruct w1. cbn in *. by subst.
Qed.

Lemma description_not_terminal id description :
  Forall (fun e => is_terminal e = false) (description_event id description).
Proof.
  destruct description as [d|]; cbn; [destruct (truthy d)|];
    repeat constructor.
Qed.

Lemma line_not_terminal type ev :
  type = Stdout ∨ type = Stderr →
  outputType ev = type → is_terminal (commandOutput ev) = false.
Proof. cbn. by intros [-> | ->] ->. Qed.

Lemma deliver_data_lines id evs r w :
  forallb is_data evs = true →
  ∃ lines r',
    (∀ rest, deliver_all id (evs ++ rest) (r, w) =
             deliver_all id rest (r', emit_all lines w)) ∧
    promise r' = promise r ∧
    (evs = [] → lines = [] ∧ r' = r) ∧
    Forall (fun ev => is_terminal (commandOutput ev) = false) lines.
Proof.
  revert r w. induction evs as [|ev evs IH]; intros r w Hd.
  - exists [], r. split; [|done]. intros rest. by rewrite emit_all_nil.
  - cbn [forallb] in Hd. apply andb_true_iff in Hd as [Hev Hd].
    destruct ev as [data|data|code|e]; try discriminate Hev;
      cbn [app deliver_all deliver].
    + unfold on_stdout.
      pose proof (processOutput_type (stdoutBuffer r) data Stdout id) as Ht.
      destruct (processOutput (stdoutBuffer r) data Stdout id) as [es buf].
      cbn [fst] in Ht.
      destruct (IH {| stdoutBuffer := buf; stderrBuffer := stderrBuffer r;
                      promise := promise r |} (emit_all es w) Hd)
        as (lines & r' & Hrun & Hp & _ & Hl).
      exists (es ++ lines), r'. split.
      { intros rest. by rewrite Hrun, emit_all_app. }
      split; [done|]. split; [done|]. apply Forall_app. split; [|done].
      eapply Forall_impl; [exact Ht|]. intros ev.
      apply line_not_terminal. by left.
    + unfold on_stderr.
      pose proof (processOutput_type (stderrBuffer r) data Stderr id) as Ht.
      destruct (processOutput (stderrBuffer r) data Stderr id) as [es buf].
      cbn [fst] in Ht.
      destruct (IH {| stdoutBuffer := stdoutBuffer r; stderrBuffer := buf;
                      promise := promise r |} (emit_all es w) Hd)
        as (lines & r' & Hrun & Hp & _ & Hl).
      exists (es ++ lines), r'. split.
      { intros rest. by rewrite Hrun, emit_all_app. }
      split; [done|]. split; [done|]. apply Forall_app. split; [|done].
      eapply Forall_impl; [exact Ht|]. intros ev.
      apply line_not_terminal. by right.
Qed.

Lemma flush_not_terminal id r :
  Forall (fun ev => is_terminal (commandOutput ev) = false)
    (flush Stdout id (stdoutBuffer r) ++ flush Stderr id (stderrBuffer r)).
Proof.
  apply Forall_app. split;
    (eapply Forall_impl; [apply flush_output_type|]); intros ev;
    apply line_not_terminal; auto.
Qed.

Lemma terminal_is_terminal id code :
  is_terminal (commandOutput (terminal_event id code)) = true.
Proof. cbn. by destruct (is_zero code). Qed.

(** C5, as stated, fails in its third part: a command that cannot be
    spawned is rejected, but its listeners stay attached, and the close
    that the child delivers after its error makes the close listener emit a
    terminal event of type error in the same run. *)
Lemma rejected_without_terminal_counterexample :
  ¬ rejected_without_terminal
      [SpawnError {| message := js "spawn /bin/sh ENOENT" |};
       Close (Some (-2)%Z)]
      (js "npm install") (js "/srv/repos/app") (js "41") None empty_world.
Proof. intros [_ H]. vm_compute in H. discriminate H. Qed.

(** C5, as amended.  In the run of a command whose child writes chunks and
    then closes, the emissions are the description, the events of the
    lines, and exactly one terminal event, the last, whose text shows the
    exit code; for the code 0 its type is [success] and the promise is
    resolved with the code, for any other code its type is [error] and the
    promise is rejected with an error whose message shows the code.  When
    the child delivers an error, the promise is rejected at once with that
    error and the error listener emits nothing, so that no terminal event
    has been emitted when the caller resumes; but the close that follows
    the error still runs the close listener, which flushes the buffers and
    emits one terminal event for the command already rejected, and the
    promise stays rejected with the error.  A child that wrote nothing
    before its error has no event but that terminal one. *)
Theorem close_and_error_runs command cwd id description w evs code e :
  forallb is_data evs = true →
  (∃ lines,
     emitted (snd (run_command (evs ++ [Close code]) command cwd id
                     description w)) =
       emitted w ++ description_event id description ++
       map commandOutput lines ++ [commandOutput (terminal_event id code)] ∧
     Forall (fun ev => is_terminal (commandOutput ev) = false) lines) ∧
  Forall (fun em => is_terminal em = false) (description_event id description) ∧
  is_terminal (commandOutput (terminal_event id code)) = true ∧
  output (terminal_event id code) =
    js "Process finished with exit code: " ++ code_to_string code ++ [LF] ∧
  (code = Some 0%Z →
     outputType (terminal_event id code) = Success ∧
     code_to_string code = js "0" ∧
     promise (fst (run_command (evs ++ [Close code]) command cwd id
                     description w)) = Resolved (Some 0%Z)) ∧
  (code ≠ Some 0%Z →
     outputType (terminal_event id code) = Error ∧
     promise (fst (run_command (evs ++ [Close code]) command cwd id
                     description w)) =
       Rejected {| message :=
         js "Command failed with exit code " ++ code_to_string code |}) ∧
  fst (executeCommand (evs ++ [SpawnError e; Close code]) command cwd id
         description w) = Rejected e ∧
  promise (fst (run_command (evs ++ [SpawnError e; Close code]) command cwd id
                  description w)) = Rejected e ∧
  (∃ lines flushed,
     emitted (snd (executeCommand (evs ++ [SpawnError e; Close code]) command
                     cwd id description w)) =
       emitted w ++ description_event id description ++
       map commandOutput lines ∧
     emitted (snd (run_command (evs ++ [SpawnError e; Close code]) command
                     cwd id description w)) =
       emitted (snd (executeCommand (evs ++ [SpawnError e; Close code])
                       command cwd id description w)) ++
       map commandOutput flushed ++ [commandOutput (terminal_event id code)] ∧
     Forall (fun ev => is_terminal (commandOutput ev) = false)
       (lines ++ flushed) ∧
     (evs = [] → lines = [] ∧ flushed = [])) ∧
  (listening w = [] →
   drain (snd (executeCommand (evs ++ [SpawnError e; Close code]) command cwd
                 id description w)) =
     snd (run_command (evs ++ [SpawnError e; Close code]) command cwd id
            description w)).
Proof.
  intros Hd.
  destruct (start_full command cwd id description w)
    as (Hr & _ & _ & _ & _ & He0).
  fold (description_event id description) in He0.
  assert (Hclose : promise (fst (run_command (evs ++ [Close code]) command cwd
                                   id description w)) =
                   outcome_of [Close code]).
  { unfold run_command.
    destruct (start command cwd id description w) as [r0 w0].
    cbn [fst] in Hr. subst r0.
    rewrite (deliver_all_promise id _ fresh_run w0 eq_refl).
    by apply outcome_of_data. }
  split; [|split; [|split; [|split; [|split; [|split; [|split; [|split;
    [|split]]]]]]]].
  - unfold run_command.
    destruct (start command cwd id description w) as [r0 w0].
    cbn [fst snd] in *.
    destruct (deliver_data_lines id evs r0 w0 Hd)
      as (lines & r' & Hrun & _ & _ & Hl).
    rewrite Hrun, deliver_all_one. cbn [deliver].
    rewrite on_close_emitted. cbn [emit_all emitted]. rewrite He0.
    exists (lines ++ flush Stdout id (stdoutBuffer r') ++
            flush Stderr id (stderrBuffer r')).
    split.
    + rewrite !map_app. cbn [map]. by rewrite <- !app_assoc.
    + apply Forall_app. split; [done | apply flush_not_terminal].
  - apply description_not_terminal.
  - apply terminal_is_terminal.
  - reflexivity.
  - intros ->. by rewrite Hclose.
  - intros Hc. assert (is_zero code = false) as Hz.
    { destruct (is_zero code) eqn:Hz; [|done]. by apply is_zero_spec in Hz. }
    rewrite Hclose. cbn. by rewrite Hz.
  - destruct (executeCommand_full (evs ++ [SpawnError e; Close code]) command
                cwd id description w) as (-> & _).
    by rewrite outcome_of_data.
  - unfold run_command.
    destruct (start command cwd id description w) as [r0 w0].
    cbn [fst] in Hr. subst r0.
    rewrite (deliver_all_promise id _ fresh_run w0 eq_refl).
    by rewrite outcome_of_data.
  - rewrite run_command_settles. unfold executeCommand.
    rewrite settling_data, late_data by done. cbn [settling late].
    destruct (start command cwd id description w) as [r0 w0].
    cbn [fst snd] in *.
    destruct (deliver_data_lines id evs r0 w0 Hd)
      as (lines & r' & Hrun & _ & Hnil & Hl).
    rewrite Hrun, deliver_all_one. cbn [deliver on_error].
    cbn [fst snd keep_listening emitted]. rewrite deliver_all_one.
    cbn [deliver]. rewrite on_close_emitted.
    cbn [stdoutBuffer stderrBuffer emit_all emitted].
    exists lines, (flush Stdout id (stdoutBuffer r') ++
                   flush Stderr id (stderrBuffer r')).
    split; [by rewrite He0, <- app_assoc|]. split.
    + rewrite !map_app. cbn [map]. by rewrite <- !app_assoc.
    + split.
      * apply Forall_app. split; [done | apply flush_not_terminal].
      * intros Hevs. destruct (Hnil Hevs) as [-> ->]. by subst r0.
  - apply run_command_drain.
Qed.

(** C5, at a command that cannot be spawned in its working directory. *)
Lemma close_and_error_runs_witness :
  promise (fst (run_command ([] ++ [Close (Some 3%Z)]) (js "npm install")
                  (js "/srv/repos/app") (js "41") None sample_world)) =
    Rejected {| message := js "Command failed with exit code 3" |} ∧
  fst (executeCommand
         ([] ++ [SpawnError {| message := js "spawn /bin/sh ENOENT" |};
                 Close (Some 3%Z)])
         (js "npm install") (js "/srv/repos/app") (js "41") None
         sample_world) =
    Rejected {| message := js "spawn /bin/sh ENOENT" |}.
Proof.
  destruct (close_and_error_runs (js "npm install") (js "/srv/repos/app")
              (js "41") None sample_world [] (Some 3%Z)
              {| message := js "spawn /bin/sh ENOENT" |} eq_refl)
    as (_ & _ & _ & _ & _ & Hrej & Herr & _).
  split; [|exact Herr]. by apply Hrej.
Defined.

(** ** The events delivered after the settlement *)



Lemma deliver_late_output (ls : list (jsstring * run * list proc_event)) w :
  ∃ evs,
    emitted
      (foldl (fun w l => snd (deliver_all (fst (fst l)) (snd l) (snd (fst l), w)))
         w ls) = emitted w ++ map commandOutput evs.
Proof.
  revert w. induction ls as [|[[id' r] evs] ls IH]; intros w.
  - exists []. cbn. by rewrite app_nil_r.
  - cbn [foldl fst snd].
    destruct (deliver_all_output_only id' evs r w) as [_ [es Hes]].
    destruct (IH (snd (deliver_all id' evs (r, w)))) as (es' & Hes').
    exists (es ++ es'). by rewrite Hes', Hes, map_app, app_assoc.
Qed.

Lemma drain_output w :
  ∃ evs, emitted (drain w) = emitted w ++ map commandOutput evs.
Proof. unfold drain. apply (deliver_late_output _ (stop_listening w)). Qed.

Lemma deliver_late_idle (ls : list (jsstring * run * list proc_event)) w :
  Forall (fun l => snd l = []) ls →
  foldl (fun w l => snd (deliver_all (fst (fst l)) (snd l) (snd (fst l), w)))
    w ls = w.
Proof.
  revert w. induction ls as [|[[id' r] evs] ls IH]; intros w H; [done|].
  apply Forall_cons in H as [Hl H]. cbn [snd] in Hl. subst evs.
  cbn [foldl fst snd deliver_all]. by apply IH.
Qed.

Lemma drain_idle w : idle w → drain w = stop_listening w.
Proof. intros H. unfold drain. by apply deliver_late_idle. Qed.

(** ** The listeners a deployment leaves behind *)

Lemma step_idle E command cwd id description w :
  late (child E command cwd) = [] →
  idle w → idle (snd (step E command cwd id description w)).
Proof.
  intros Hl Hw. unfold step, await.
  destruct (executeCommand_listening (child E command cwd) command cwd id
              (Some description) w) as (r & Hr).
  destruct (executeCommand _ command cwd id (Some description) w) as [s w'].
  cbn [snd] in Hr.
  assert (idle w').
  { unfold idle. rewrite Hr, Hl. apply Forall_app. split; [done|].
    by apply Forall_singleton. }
  by destruct s.
Qed.

Lemma run_steps_inv {B} (P : world → Prop) E id steps (K : M B) w :
  (∀ command cwd description w,
     (command, cwd, description) ∈ steps →
     P w → P (snd (step E command cwd id description w))) →
  (∀ w, P w → P (snd (K w))) →
  P w → P (snd (run_steps E id steps K w)).
Proof.
  revert w. induction steps as [|[[command cwd] description] rest IH];
    intros w Hstep HK Hw; [by apply HK|].
  cbn [run_steps]. unfold bind.
  pose proof (Hstep command cwd description w ltac:(left) Hw) as H1.
  destruct (step E command cwd id description w) as [[code|e|] w1];
    cbn [snd] in *; [|done..].
  apply IH; [|done..]. intros c d desc w' Hin. apply Hstep. by right.
Qed.




Lemma deploy_unfold E gitUrl branch w :
  deploy E gitUrl branch w =
    match run_steps E (fresh_id E) (deploy_steps E gitUrl branch)
            (io_emit (commandFinished (fresh_id E) 0) >>
             ret {| status := 200; body := DeployOk (fresh_id E) |})
            (emit (commandOutput (simple_event System (fresh_id E)
               (js "Starting deployment process for " ++ repoName_of gitUrl
                ++ js "..." ++ [LF]))) w) with
    | (Ok r, w') => (Some r, w')
    | (Throw error, w') =>
        (Some {| status := 500; body := Failure (message error) |},
         emit (commandFinished (fresh_id E) 1)
           (emit (commandOutput (simple_event Stderr (fresh_id E)
              (js "Error: " ++ message error ++ [LF]))) w'))
    | (Suspended, w') => (None, w')
    end.
Proof. unfold deploy. by rewrite deploy_try_steps. Qed.

Lemma deploy_steps_plan E gitUrl branch command cwd description :
  (command, cwd, description) ∈ deploy_steps E gitUrl branch →
  (command, cwd) ∈ plan E gitUrl branch.
Proof.
  intros H. unfold plan.
  change (command, cwd) with (fst (command, cwd, description)).
  apply list_elem_of_fmap. by exists (command, cwd, description).
Qed.


Lemma deploy_run_unfold E gitUrl branch w :
  deploy_run E gitUrl branch w =
    (fst (deploy E gitUrl branch w), drain (snd (deploy E gitUrl branch w))).
Proof. unfold deploy_run. by destruct (deploy E gitUrl branch w). Qed.

Lemma deploy_idle E gitUrl branch w :
  nothing_late E (plan E gitUrl branch) →
  idle w → idle (snd (deploy E gitUrl branch w)).
Proof.
  intros Hl Hw. rewrite deploy_unfold.
  set (K := io_emit (commandFinished (fresh_id E) 0) >>
            ret {| status := 200; body := DeployOk (fresh_id E) |}).
  set (w0 := emit _ w).
  assert (H : idle (snd (run_steps E (fresh_id E)
                           (deploy_steps E gitUrl branch) K w0))).
  { apply run_steps_inv; [|done|done].
    intros command cwd description w1 Hin. apply step_idle.
    unfold nothing_late in Hl. rewrite Forall_forall in Hl.
    apply (Hl (command, cwd)). by eapply deploy_steps_plan. }
  by destruct (run_steps E (fresh_id E) (deploy_steps E gitUrl branch) K w0)
    as [[r|e|] w'].
Qed.

Lemma step_spawn_failure E command cwd id description e code w :
  child E command cwd = [SpawnError e; Close code] →
  fst (step E command cwd id description w) = Throw e ∧
  listening (snd (step E command cwd id description w)) =
    listening w ++
    [(id, {| stdoutBuffer := []; stderrBuffer := []; promise := Rejected e |},
      [Close code])].
Proof.
  intros Hc. unfold step, await, executeCommand. rewrite Hc.
  cbn [settling late].
  destruct (start_full command cwd id (Some description) w) as (Hr & _).
  pose proof (start_listening command cwd id (Some description) w) as Hl.
  destruct (start command cwd id (Some description) w) as [r0 w0].
  cbn [fst snd] in *. subst r0. cbn. by rewrite Hl.
Qed.

Lemma run_steps_spawn_failure {B} E id steps (K : M B) k s e code w :
  steps !! k = Some s →
  Forall (fun s => resolves E (fst s)) (take k steps) →
  nothing_late E (map fst (take k steps)) →
  child E (fst (fst s)) (snd (fst s)) = [SpawnError e; Close code] →
  idle w →
  fst (run_steps E id steps K w) = Throw e ∧
  ∃ ls,
    listening (snd (run_steps E id steps K w)) =
      ls ++
      [(id, {| stdoutBuffer := []; stderrBuffer := []; promise := Rejected e |},
        [Close code])] ∧
    Forall (fun l => snd l = []) ls.
Proof.
  revert k w. induction steps as [|[[command cwd] description] rest IH];
    intros k w Hk Hres Hlate Hc Hw; [done|].
  cbn [run_steps]. unfold bind. destruct k as [|k].
  - simplify_eq/=.
    destruct (step_spawn_failure E command cwd id description e code w Hc)
      as [Hf Hl].
    destruct (step E command cwd id description w) as [res w1].
    cbn [fst snd] in *. subst res. split; [done|]. by exists (listening w).
  - cbn [take map] in Hres, Hlate.
    apply Forall_cons in Hres as [[c Hr] Hres].
    apply Forall_cons in Hlate as [Hl Hlate]. cbn [fst snd] in Hr, Hl.
    pose proof (step_idle E command cwd id description w Hl Hw) as Hi.
    destruct (step_full E command cwd id description w) as (w1 & Hs & _).
    rewrite Hs in Hi |- *. rewrite Hr in *. cbn [snd] in Hi.
    by apply (IH k).
Qed.

Lemma flush_empty type id : flush type id [] = [].
Proof. reflexivity. Qed.



(** A deployment emits a completion event exactly when it sends a
    response, with exit code 0 for the answer 200 and 1 for the answer
    500, and it is its last emission when the response is sent; all other
    emissions are output events, also those of the listeners that are still
    attached after the response, so that no second completion event
    follows.  When no listener has an event left to deliver, nothing is
    emitted after the response; when a step cannot be spawned, the close
    its child delivers after the error makes the close listener emit the
    terminal event after the completion event. *)
Theorem deploy_completion_event E gitUrl branch w :
  (∃ evs late,
     emitted (snd (deploy E gitUrl branch w)) =
       emitted w ++ map commandOutput evs ++
       match fst (deploy E gitUrl branch w) with
       | Some r =>
           [commandFinished (fresh_id E) (if (status r =? 200)%N then 0 else 1)]
       | None => []
       end ∧
     emitted (snd (deploy_run E gitUrl branch w)) =
       emitted (snd (deploy E gitUrl branch w)) ++ map commandOutput late ∧
     (idle w → nothing_late E (plan E gitUrl branch) → late = [])) ∧
  fst (deploy_run E gitUrl branch w) = fst (deploy E gitUrl branch w) ∧
  match fst (deploy E gitUrl branch w) with
  | Some r => status r = 200%N ∨ status r = 500%N
  | None => True
  end ∧
  (∀ k s e code,
     plan E gitUrl branch !! k = Some s →
     Forall (resolves E) (take k (plan E gitUrl branch)) →
     nothing_late E (take k (plan E gitUrl branch)) →
     child E (fst s) (snd s) = [SpawnError e; Close code] →
     idle w →
     emitted (snd (deploy_run E gitUrl branch w)) =
       emitted (snd (deploy E gitUrl branch w)) ++
       [commandOutput (terminal_event (fresh_id E) code)]).
Proof.
  rewrite deploy_run_unfold. cbn [fst snd].
  split; [|split; [done|split]].
  - destruct (drain_output (snd (deploy E gitUrl branch w))) as (late & Hlate).
    assert (Hidle : idle w → nothing_late E (plan E gitUrl branch) →
                    late = []).
    { intros Hw Hl. rewrite drain_idle in Hlate by by apply deploy_idle.
      cbn [stop_listening emitted] in Hlate.
      rewrite <- (app_nil_r (emitted _)) in Hlate at 1.
      apply app_inv_head in Hlate. symmetry in Hlate.
      by apply map_eq_nil in Hlate. }
    destruct (deploy_cases E gitUrl branch w)
      as (w1 & n & evs & _ & _ & Hev & _ & _ & _ & Hcase).
    destruct Hcase as [(_ & _ & Hd & _)
                       |(_ & s & _ & [(e & _ & Hd)|(_ & Hd & _)])];
      rewrite Hd in *; cbn [fst snd emit emitted status N.eqb Pos.eqb] in *.
    + exists evs, late. split; [by rewrite Hev, <- app_assoc | done].
    + exists (evs ++ [simple_event Stderr (fresh_id E)
                        (js "Error: " ++ message e ++ [LF])]), late.
      split; [|done]. rewrite Hev, map_app. cbn [map].
      by rewrite <- !app_assoc.
    + exists evs, late. split; [|done]. by rewrite Hev, app_nil_r.
  - destruct (deploy_cases E gitUrl branch w)
      as (w1 & n & evs & _ & _ & _ & _ & _ & _ & Hcase).
    destruct Hcase as [(_ & _ & Hd & _)
                       |(_ & s & _ & [(e & _ & Hd)|(_ & Hd & _)])];
      rewrite Hd; cbn [fst status]; auto.
  - intros k s e code Hk Hres Hlate Hc Hw.
    unfold plan in Hk, Hres, Hlate. rewrite list_lookup_fmap in Hk.
    destruct (deploy_steps E gitUrl branch !! k) as [s'|] eqn:Hk'; [|done].
    simpl in Hk. injection Hk as <-.
    rewrite firstn_map in Hres, Hlate. rewrite Forall_map in Hres.
    rewrite deploy_unfold.
    set (K := io_emit (commandFinished (fresh_id E) 0) >>
              ret {| status := 200; body := DeployOk (fresh_id E) |}).
    set (w0 := emit _ w).
    destruct (run_steps_spawn_failure E (fresh_id E) _ K k s' e code w0
                Hk' Hres Hlate Hc Hw) as (Hf & ls & Hl & Hls).
    destruct (run_steps E (fresh_id E) (deploy_steps E gitUrl branch) K w0)
      as [res w']. cbn [fst snd] in *. subst res. cbn [snd].
    unfold drain. cbn [emit listening]. rewrite Hl, foldl_app.
    rewrite (deliver_late_idle ls _ Hls).
    cbn [foldl fst snd]. rewrite deliver_all_one. cbn [deliver].
    rewrite on_close_emitted. cbn [stdoutBuffer stderrBuffer].
    by rewrite !flush_empty.
Qed.

(** A deployment whose first command cannot be spawned: the terminal event
    of the close follows the completion event. *)
Lemma deploy_completion_event_witness :
  emitted (snd (deploy_run failing_env (js "https://example.org/team/app.git")
                  (js "main") empty_world)) =
    emitted (snd (deploy failing_env (js "https://example.org/team/app.git")
                    (js "main") empty_world)) ++
    [commandOutput (terminal_event (fresh_id failing_env) (Some (-2)%Z))].
Proof.
  destruct (deploy_completion_event failing_env
              (js "https://example.org/team/app.git") (js "main") empty_world)
    as (_ & _ & _ & H).
  apply (H 0 (js "git clone https://example.org/team/app.git", js "/srv/repos")
           {| message := js "spawn ENOENT" |} (Some (-2)%Z));
    [reflexivity | constructor | constructor | reflexivity | constructor].
Defined.

(** * The earlier server *)

Lemma legacy_bind_assoc {A B C} (m : Legacy.M A) (f : A → Legacy.M B)
    (g : B → Legacy.M C) w :
  Legacy.bind (Legacy.bind m f) g w =
  Legacy.bind m (fun a => Legacy.bind (f a) g) w.
Proof. unfold Legacy.bind. by destruct (m w) as [[a|e|] w']. Qed.

Lemma legacy_bind_ext {A B} (m : Legacy.M A) (k k' : A → Legacy.M B) w :
  (∀ a w', k a w' = k' a w') → Legacy.bind m k w = Legacy.bind m k' w.
Proof. intros H. unfold Legacy.bind. by destruct (m w) as [[a|e|] w']. Qed.

Lemma legacy_deliver_all_registry id evs s :
  Legacy.activeProcesses (snd (Legacy.deliver_all id evs s)) =
    Legacy.activeProcesses (snd s) ∧
  Legacy.killed (snd (Legacy.deliver_all id evs s)) = Legacy.killed (snd s) ∧
  Legacy.spawned (snd (Legacy.deliver_all id evs s)) = Legacy.spawned (snd s).
Proof.
  revert s. induction evs as [|ev evs IH]; intros [p w]; [done|].
  cbn [Legacy.deliver_all].
  assert (Hd : Legacy.activeProcesses (snd (Legacy.deliver id ev (p, w))) =
               Legacy.activeProcesses w ∧
               Legacy.killed (snd (Legacy.deliver id ev (p, w))) =
               Legacy.killed w ∧
               Legacy.spawned (snd (Legacy.deliver id ev (p, w))) =
               Legacy.spawned w).
  { by destruct ev. }
  destruct (Legacy.deliver id ev (p, w)) as [p' w']. cbn [fst snd] in *.
  destruct (IH (p', w')) as (H1 & H2 & H3). cbn [snd] in *.
  destruct Hd as (D1 & D2 & D3). by rewrite H1, H2, H3.
Qed.

Lemma legacy_deliver_data id evs rest w :
  forallb is_data evs = true →
  ∃ w' out,
    Legacy.deliver_all id (evs ++ rest) (Pending, w) =
      Legacy.deliver_all id rest (Pending, w') ∧
    Legacy.emitted w' = Legacy.emitted w ++ out ∧
    length out = length evs ∧
    omap (Legacy.output_of Stdout) out = stdout_chunks evs ∧
    omap (Legacy.output_of Stderr) out = stderr_chunks evs ∧
    omap Legacy.finished_code out = [].
Proof.
  revert w. induction evs as [|ev evs IH]; intros w Hd.
  - exists w, []. by rewrite app_nil_r.
  - cbn [forallb] in Hd. apply andb_true_iff in Hd as [Hev Hd].
    destruct ev as [data|data|code|e]; try discriminate Hev;
      cbn [app Legacy.deliver_all Legacy.deliver fst].
    + destruct (IH (Legacy.emit (Legacy.commandOutput id data Stdout) w) Hd)
        as (w' & out & Hrun & Hem & Hlen & Ho & He & Hf).
      exists w', (Legacy.commandOutput id data Stdout :: out).
      split; [done|]. split; [rewrite Hem; cbn; by rewrite <- app_assoc|].
      split; [cbn; by rewrite Hlen|].
      cbn [omap list_omap Legacy.output_of Legacy.finished_code
             stdout_chunks stderr_chunks flat_map app].
      rewrite decide_True by done. rewrite decide_False by done.
      fold (stdout_chunks evs). fold (stderr_chunks evs).
      by rewrite <- Ho, <- He.
    + destruct (IH (Legacy.emit (Legacy.commandOutput id data Stderr) w) Hd)
        as (w' & out & Hrun & Hem & Hlen & Ho & He & Hf).
      exists w', (Legacy.commandOutput id data Stderr :: out).
      split; [done|]. split; [rewrite Hem; cbn; by rewrite <- app_assoc|].
      split; [cbn; by rewrite Hlen|].
      cbn [omap list_omap Legacy.output_of Legacy.finished_code
             stdout_chunks stderr_chunks flat_map app].
      rewrite decide_False by done. rewrite decide_True by done.
      fold (stdout_chunks evs). fold (stderr_chunks evs).
      by rewrite <- Ho, <- He.
Qed.

(** The earlier server emits every chunk of a child as one event, as it
    arrives and unchanged, blank chunks included: up to the close, the
    stdout events carry the stdout chunks in order and the stderr events
    the stderr chunks; the close emits one completion event with the exit
    code and resolves the promise with it, whatever the code. *)
Theorem legacy_chunks_verbatim command cwd id w evs code rest :
  forallb is_data evs = true →
  fst (Legacy.executeCommand (evs ++ Close code :: rest) command cwd id w) =
    Resolved code ∧
  ∃ out,
    Legacy.emitted
      (snd (Legacy.executeCommand (evs ++ Close code :: rest) command cwd id w)) =
      Legacy.emitted w ++ out ++ [Legacy.commandFinished id code] ∧
    length out = length evs ∧
    omap (Legacy.output_of Stdout) out = stdout_chunks evs ∧
    omap (Legacy.output_of Stderr) out = stderr_chunks evs.
Proof.
  intros Hd. unfold Legacy.executeCommand, Legacy.start.
  cbn [Legacy.spawn].
  set (w0 := Legacy.set_registry _ _).
  rewrite settling_data by done. cbn [settling].
  destruct (legacy_deliver_data id evs [Close code] w0 Hd)
    as (w' & out & Hrun & Hem & Hlen & Ho & He & _).
  rewrite Hrun. cbn [Legacy.deliver_all Legacy.deliver fst snd settle].
  split; [done|]. exists out.
  cbn [Legacy.keep_listening Legacy.emit Legacy.emitted].
  rewrite Hem. subst w0. cbn. by rewrite <- app_assoc.
Qed.

Lemma legacy_chunks_verbatim_witness :
  fst (Legacy.executeCommand
         ([StdoutData (js " "); StderrData (js "fatal")] ++
          Close (Some 128%Z) :: [])
         (js "git fetch --all") (js "/srv/repos/app") (js "41")
         Legacy.empty_world) = Resolved (Some 128%Z).
Proof.
  apply (legacy_chunks_verbatim (js "git fetch --all") (js "/srv/repos/app")
           (js "41") Legacy.empty_world
           [StdoutData (js " "); StderrData (js "fatal")] (Some 128%Z) []).
  reflexivity.
Defined.

Lemma legacy_executeCommand_frame behaviour command cwd id w :
  Legacy.activeProcesses
    (snd (Legacy.executeCommand behaviour command cwd id w)) =
    <[id := Legacy.next_handle w]> (Legacy.activeProcesses w) ∧
  Legacy.killed (snd (Legacy.executeCommand behaviour command cwd id w)) =
    Legacy.killed w ∧
  Legacy.spawned (snd (Legacy.executeCommand behaviour command cwd id w)) =
    Legacy.spawned w ++ [(command, cwd)].
Proof.
  unfold Legacy.executeCommand.
  destruct (legacy_deliver_all_registry id (settling behaviour)
              (Legacy.start command cwd id w)) as (H1 & H2 & H3).
  destruct (Legacy.deliver_all id (settling behaviour)
              (Legacy.start command cwd id w)) as [p w'].
  cbn [fst snd Legacy.keep_listening Legacy.activeProcesses Legacy.killed
         Legacy.spawned] in *.
  by rewrite H1, H2, H3.
Qed.

(** In the earlier server nothing but a stop request removes a handle: after
    a command, whatever its child did, the identifier is registered to the
    process that was spawned and nothing was killed; a stop request then
    kills that process, removes the identifier and emits nothing. *)
Theorem legacy_handle_stays_registered behaviour command cwd id w :
  Legacy.activeProcesses
    (snd (Legacy.executeCommand behaviour command cwd id w)) !! id =
    Some (Legacy.next_handle w) ∧
  (∀ id', id' ≠ id →
     Legacy.activeProcesses
       (snd (Legacy.executeCommand behaviour command cwd id w)) !! id' =
     Legacy.activeProcesses w !! id') ∧
  Legacy.killed (snd (Legacy.executeCommand behaviour command cwd id w)) =
    Legacy.killed w ∧
  Legacy.killed
    (snd (Legacy.stop id
            (snd (Legacy.executeCommand behaviour command cwd id w)))) =
    Legacy.killed w ++ [Legacy.next_handle w] ∧
  Legacy.activeProcesses
    (snd (Legacy.stop id
            (snd (Legacy.executeCommand behaviour command cwd id w)))) !! id =
    None ∧
  Legacy.emitted
    (snd (Legacy.stop id
            (snd (Legacy.executeCommand behaviour command cwd id w)))) =
    Legacy.emitted (snd (Legacy.executeCommand behaviour command cwd id w)).
Proof.
  destruct (legacy_executeCommand_frame behaviour command cwd id w)
    as (Hreg & Hk & _).
  assert (Hl : Legacy.activeProcesses
                 (snd (Legacy.executeCommand behaviour command cwd id w)) !! id =
               Some (Legacy.next_handle w)).
  { rewrite Hreg. apply lookup_insert_eq. }
  split; [done|]. split.
  { intros id' Hne. rewrite Hreg. by apply lookup_insert_ne. }
  split; [done|]. unfold Legacy.stop. rewrite Hl.
  cbn [snd Legacy.kill Legacy.set_registry Legacy.killed
         Legacy.activeProcesses Legacy.emitted].
  split; [by rewrite Hk|]. split; [apply lookup_delete_eq | done].
Qed.

Lemma legacy_handle_stays_registered_witness :
  Legacy.activeProcesses
    (snd (Legacy.executeCommand [Close (Some 0%Z)] (js "npm install")
            (js "/srv/repos/app") (js "41") Legacy.empty_world)) !! js "41" =
    Some 1%positive.
Proof.
  apply (legacy_handle_stays_registered [Close (Some 0%Z)] (js "npm install")
           (js "/srv/repos/app") (js "41") Legacy.empty_world).
Defined.

Lemma legacy_deliver_all_closes id evs w :
  closes evs = true →
  ∃ code w' new,
    Legacy.deliver_all id (settling evs) (Pending, w) = (Resolved code, w') ∧
    Legacy.emitted w' = Legacy.emitted w ++ new ∧
    length (omap Legacy.finished_code new) = 1.
Proof.
  revert w. induction evs as [|ev evs IH]; intros w Hc; [done|].
  destruct ev as [data|data|code|e]; cbn [closes] in Hc; try done;
    cbn [settling Legacy.deliver_all Legacy.deliver fst settle].
  - destruct (IH (Legacy.emit (Legacy.commandOutput id data Stdout) w) Hc)
      as (code & w' & new & Hrun & Hem & Hlen).
    exists code, w', (Legacy.commandOutput id data Stdout :: new).
    split; [done|]. split; [|done]. rewrite Hem. cbn. by rewrite <- app_assoc.
  - destruct (IH (Legacy.emit (Legacy.commandOutput id data Stderr) w) Hc)
      as (code & w' & new & Hrun & Hem & Hlen).
    exists code, w', (Legacy.commandOutput id data Stderr :: new).
    split; [done|]. split; [|done]. rewrite Hem. cbn. by rewrite <- app_assoc.
  - by exists code, (Legacy.emit (Legacy.commandFinished id code) w),
      [Legacy.commandFinished id code].
Qed.

Lemma legacy_exec_closes E command cwd id w :
  closes (child E command cwd) = true →
  ∃ code w1 new,
    Legacy.exec E command cwd id w = (Ok code, w1) ∧
    Legacy.spawned w1 = Legacy.spawned w ++ [(command, cwd)] ∧
    Legacy.activeProcesses w1 =
      <[id := Legacy.next_handle w]> (Legacy.activeProcesses w) ∧
    Legacy.emitted w1 = Legacy.emitted w ++ new ∧
    length (omap Legacy.finished_code new) = 1.
Proof.
  intros Hc. unfold Legacy.exec.
  destruct (legacy_executeCommand_frame (child E command cwd) command
              cwd id w) as (Hreg & _ & Hsp).
  unfold Legacy.executeCommand, Legacy.start in *. cbn [Legacy.spawn] in *.
  set (w0 := Legacy.set_registry _ _) in *.
  destruct (legacy_deliver_all_closes id (child E command cwd) w0 Hc)
    as (code & w1 & new & Hrun & Hem & Hlen).
  rewrite Hrun in *.
  cbn [fst snd Legacy.keep_listening Legacy.activeProcesses Legacy.spawned]
    in *.
  by exists code,
    (Legacy.keep_listening id (Resolved code) (late (child E command cwd)) w1),
    new.
Qed.

Lemma legacy_run_steps_ok {B} E id steps (K : Legacy.M B) w :
  Forall (fun s => closes (child E (fst (fst s)) (snd (fst s))) = true) steps →
  ∃ w' new,
    Legacy.run_steps E id steps K w = K w' ∧
    Legacy.spawned w' = Legacy.spawned w ++ map fst steps ∧
    Legacy.emitted w' = Legacy.emitted w ++ new ∧
    length (omap Legacy.finished_code new) = length steps ∧
    (steps = [] → w' = w) ∧
    (steps ≠ [] → is_Some (Legacy.activeProcesses w' !! id)).
Proof.
  revert w. induction steps as [|[[command cwd] description] rest IH];
    intros w Hall.
  - exists w, []. cbn. by rewrite !app_nil_r.
  - apply Forall_cons in Hall as [Hc Hall]. cbn [fst snd] in Hc.
    cbn [Legacy.run_steps]. unfold Legacy.bind at 1. cbn [Legacy.io_emit].
    unfold Legacy.bind at 1.
    destruct (legacy_exec_closes E command cwd id
                (Legacy.emit (Legacy.commandOutput id (description ++ [LF])
                                System) w) Hc)
      as (code & w1 & new & Hrun & Hsp & Hreg & Hem & Hlen).
    rewrite Hrun.
    destruct (IH w1 Hall)
      as (w' & new' & Hrun' & Hsp' & Hem' & Hlen' & Hnil & Hreg').
    exists w', (Legacy.commandOutput id (description ++ [LF]) System
                :: new ++ new').
    split; [done|]. split; [rewrite Hsp', Hsp; cbn; by rewrite <- app_assoc|].
    split.
    { rewrite Hem', Hem. cbn. by rewrite <- !app_assoc. }
    split.
    { change (omap Legacy.finished_code
                (Legacy.commandOutput id (description ++ [LF]) System
                 :: new ++ new'))
        with (omap Legacy.finished_code (new ++ new')).
      rewrite omap_app, length_app, Hlen, Hlen'. done. }
    split; [done|]. intros _. destruct rest as [|s rest]; [|by apply Hreg'].
    rewrite (Hnil eq_refl), Hreg. cbn [Legacy.emit Legacy.activeProcesses].
    rewrite lookup_insert_eq. by eexists.
Qed.

Lemma legacy_deploy_try_steps E gitUrl branch id w :
  Legacy.deploy_try E gitUrl branch id w =
    Legacy.bind
      (Legacy.io_emit (Legacy.commandOutput id
         (js "Starting deployment process for " ++ repoName_of gitUrl
          ++ js "..." ++ [LF]) System))
      (fun _ => Legacy.run_steps E id (deploy_steps E gitUrl branch)
                  (Legacy.ret {| status := 200; body := DeployOk id |})) w.
Proof.
  unfold Legacy.deploy_try, deploy_steps.
  apply legacy_bind_ext. intros _ w'.
  destruct (negb (existsSync E _)); cbn [Legacy.run_steps];
    rewrite legacy_bind_assoc; by rewrite <- ?app_assoc.
Qed.

(** In the earlier server a close never rejects: when the child of every
    step closes, with whatever exit code, the deployment answers 200, has
    spawned the four steps in order and has emitted four completion events;
    the identifier is still registered afterwards. *)
Theorem legacy_exit_code_ignored E gitUrl branch w :
  Forall (fun s => closes (child E (fst s) (snd s)) = true)
    (plan E gitUrl branch) →
  fst (Legacy.deploy E gitUrl branch w) =
    Some {| status := 200; body := DeployOk (fresh_id E) |} ∧
  Legacy.spawned (snd (Legacy.deploy E gitUrl branch w)) =
    Legacy.spawned w ++ plan E gitUrl branch ∧
  (∃ new,
     Legacy.emitted (snd (Legacy.deploy E gitUrl branch w)) =
       Legacy.emitted w ++ new ∧
     length (omap Legacy.finished_code new) = 4) ∧
  is_Some (Legacy.activeProcesses (snd (Legacy.deploy E gitUrl branch w))
             !! fresh_id E).
Proof.
  intros Hall. unfold plan in Hall. rewrite Forall_map in Hall.
  destruct (legacy_run_steps_ok E (fresh_id E) (deploy_steps E gitUrl branch)
              (Legacy.ret {| status := 200; body := DeployOk (fresh_id E) |})
              (Legacy.emit (Legacy.commandOutput (fresh_id E)
                 (js "Starting deployment process for " ++ repoName_of gitUrl
                  ++ js "..." ++ [LF]) System) w) Hall)
    as (w' & new & Hrun & Hsp & Hem & Hlen & _ & Hreg).
  assert (Hd : Legacy.deploy E gitUrl branch w =
            (Some {| status := 200; body := DeployOk (fresh_id E) |}, w')).
  { unfold Legacy.deploy. rewrite legacy_deploy_try_steps.
    unfold Legacy.bind at 1. cbn [Legacy.io_emit]. by rewrite Hrun. }
  rewrite Hd. cbn [fst snd]. split; [done|].
  split; [by rewrite Hsp|]. split.
  - eexists (_ :: new). split; [rewrite Hem; cbn; by rewrite <- app_assoc|].
    exact Hlen.
  - by apply Hreg.
Qed.

Lemma legacy_exit_code_ignored_witness :
  fst (Legacy.deploy failing_exit_env (js "https://example.org/team/app.git")
         (js "main") Legacy.empty_world) =
    Some {| status := 200; body := DeployOk (js "1700000000003") |}.
Proof.
  apply (legacy_exit_code_ignored failing_exit_env
           (js "https://example.org/team/app.git") (js "main")
           Legacy.empty_world).
  repeat constructor.
Defined.

Lemma legacy_deliver_all_listening id evs s :
  Legacy.listening (snd (Legacy.deliver_all id evs s)) =
    Legacy.listening (snd s).
Proof.
  revert s. induction evs as [|ev evs IH]; intros [p w]; [done|].
  cbn [Legacy.deliver_all]. rewrite IH. by destruct ev.
Qed.

(** In the earlier server too the listeners of a child stay attached after
    its promise is settled: when a child writes chunks, delivers an error
    and then closes, the command is rejected with the error without any
    completion event, and the close listener then emits the completion
    event with the code of the close; the identifier stays registered. *)
Theorem legacy_close_after_error command cwd id w evs e code :
  forallb is_data evs = true →
  Legacy.listening w = [] →
  fst (Legacy.executeCommand (evs ++ [SpawnError e; Close code]) command cwd
         id w) = Rejected e ∧
  omap Legacy.finished_code
    (Legacy.emitted
       (snd (Legacy.executeCommand (evs ++ [SpawnError e; Close code]) command
               cwd id w))) =
    omap Legacy.finished_code (Legacy.emitted w) ∧
  Legacy.emitted
    (Legacy.drain
       (snd (Legacy.executeCommand (evs ++ [SpawnError e; Close code]) command
               cwd id w))) =
    Legacy.emitted
      (snd (Legacy.executeCommand (evs ++ [SpawnError e; Close code]) command
              cwd id w)) ++ [Legacy.commandFinished id code] ∧
  Legacy.activeProcesses
    (Legacy.drain
       (snd (Legacy.executeCommand (evs ++ [SpawnError e; Close code]) command
               cwd id w))) !! id = Some (Legacy.next_handle w).
Proof.
  intros Hd Hw. unfold Legacy.executeCommand, Legacy.start.
  cbn [Legacy.spawn]. set (w0 := Legacy.set_registry _ _).
  rewrite settling_data, late_data by done. cbn [settling late].
  destruct (legacy_deliver_data id evs [SpawnError e] w0 Hd)
    as (w' & out & Hrun & Hem & _ & _ & _ & Hf).
  pose proof (legacy_deliver_all_listening id (evs ++ [SpawnError e])
                (Pending, w0)) as Hl.
  destruct (legacy_deliver_all_registry id (evs ++ [SpawnError e])
              (Pending, w0)) as (Hreg & _).
  rewrite Hrun in *.
  cbn [Legacy.deliver_all Legacy.deliver fst snd settle] in *.
  cbn [Legacy.keep_listening Legacy.emitted]. split; [done|]. split.
  { rewrite Hem, omap_app, Hf, app_nil_r. by subst w0. }
  unfold Legacy.drain. cbn [Legacy.keep_listening Legacy.listening].
  rewrite Hl. subst w0.
  cbn [Legacy.set_registry Legacy.listening] in *. rewrite Hw.
  cbn [app foldl fst snd Legacy.deliver_all Legacy.deliver Legacy.emit
         Legacy.stop_listening Legacy.keep_listening Legacy.emitted
         Legacy.activeProcesses].
  split; [done|]. rewrite Hreg. apply lookup_insert_eq.
Qed.

Lemma legacy_close_after_error_witness :
  Legacy.emitted
    (Legacy.drain
       (snd (Legacy.executeCommand
               ([] ++ [SpawnError {| message := js "spawn ENOENT" |};
                       Close (Some (-2)%Z)])
               (js "npm install") (js "/srv/repos/app") (js "41")
               Legacy.empty_world))) =
    Legacy.emitted
      (snd (Legacy.executeCommand
              ([] ++ [SpawnError {| message := js "spawn ENOENT" |};
                      Close (Some (-2)%Z)])
              (js "npm install") (js "/srv/repos/app") (js "41")
              Legacy.empty_world)) ++
    [Legacy.commandFinished (js "41") (Some (-2)%Z)].
Proof.
  apply (legacy_close_after_error (js "npm install") (js "/srv/repos/app")
           (js "41") Legacy.empty_world [] {| message := js "spawn ENOENT" |}
           (Some (-2)%Z)); reflexivity.
Defined.
